(** * OpenTogetherTube: the metadata resolution and caching engine

    A shallow embedding of the [infoextract] module (cache lookup, gap
    detection, adapter fetch, merge, cache write-back, quota fallback and
    the query resolver) together with the properties of its specification.

    The module's collaborators that live in other files ([../storage],
    [../common/video], the service adapters, Node's [url] module) are
    interfaces here: records of operations and section variables. *)

From stdpp Require Import gmap strings list fin_maps.
From Stdlib Require Import ZArith.

Open Scope string_scope.
Open Scope list_scope.
Open Scope nat_scope.

(** ** JavaScript values, exceptions and completions *)

(** The primitive values a video property can hold. *)
Inductive jsval :=
| JUndefined
| JNull
| JBool (b : bool)
| JNum (n : Z)
| JStr (s : string).

#[global] Instance jsval_eq_dec : EqDecision jsval.
Proof. solve_decision. Defined.

(** ToBoolean, as [&&] and [if] apply it. *)
Definition truthy (v : jsval) : bool :=
  match v with
  | JUndefined | JNull => false
  | JBool b => b
  | JNum n => negb (n =? 0)%Z
  | JStr s => match s with EmptyString => false | String _ _ => true end
  end.

(** Operands of the one strict comparison of the module: an array of
    field names on the left, a primitive on the right. *)
Inductive jsoperand :=
| OArray (l : list string)
| OPrim (v : jsval).

(** [a === b]: no conversion; an array (an object) equals only itself,
    never a primitive. *)
Definition strict_equals (a b : jsoperand) : bool :=
  match a, b with
  | OPrim x, OPrim y => bool_decide (x = y)
  | OArray _, OPrim _ | OPrim _, OArray _ => false
  | OArray _, OArray _ => false (* two distinct array objects *)
  end.

(** What the module can see thrown. [OtherError] stands for any error a
    collaborator raises that is neither of the two imported exception
    classes nor a [TypeError] of the runtime. *)
Inductive exn :=
| TypeError (msg : string)
| UnsupportedMimeTypeException (mime : jsval)
| OutOfQuotaException
| OtherError (name : string).

#[global] Instance exn_eq_dec : EqDecision exn.
Proof. solve_decision. Defined.

(** [e instanceof OutOfQuotaException] *)
Definition instanceof_OutOfQuotaException (e : exn) : bool :=
  match e with OutOfQuotaException => true | _ => false end.

Definition is_TypeError (e : exn) : bool :=
  match e with TypeError _ => true | _ => false end.

(** The completion of a call: a value or a thrown exception. *)
Inductive result (A : Type) :=
| Ok (a : A)
| Throw (e : exn).
Arguments Ok {A} a.
Arguments Throw {A} e.

(** ** The video record ([../common/video]) *)

Module Video.

(** Modelled from the spec: the class [Video] of [../common/video] is not
    part of the sources at hand. A record is its own properties: a finite
    map from property names ([service], [id], [title], [mime], ...) to
    values; a field is present when the map has it. *)
Abbreviation t := (gmap string jsval).

(** Modelled from the spec: [new Video(result)], a record "constructed
    from a cache read (possibly partial)": it has the properties read. *)
Definition new (args : t) : t := args.

(** [video.hasOwnProperty(p)] *)
Definition hasOwnProperty (video : t) (p : string) : bool :=
  bool_decide (is_Some (video !! p)).

(** [video.p]: reading a property that is not there gives [undefined]. *)
Definition get (video : t) (p : string) : jsval :=
  default JUndefined (video !! p).

(** Modelled from the spec: [Video.merge(a, b)] of [../common/video],
    "fields present in the newer record overwrite the older; absent
    fields in the newer record fall back to the older". The properties
    of [b] are assigned one by one over a copy of [a]. *)
Definition merge (a b : t) : t :=
  map_fold (fun p v acc => <[p := v]> acc) a b.

End Video.

(** ** The cache store ([../storage]) *)

(** The four operations the module calls on [storage]. A read may fail; a
    write is issued and not awaited, so the module never sees its outcome. *)
Record Storage (store : Type) := {
  storage_getVideoInfo : store -> string -> string -> result Video.t;
  storage_getVideoInfoFields : jsval -> list string;
  storage_updateVideoInfo : store -> Video.t -> store;
  storage_updateManyVideoInfo : store -> list Video.t -> store;
}.
Arguments storage_getVideoInfo {store} _ _ _ _.
Arguments storage_getVideoInfoFields {store} _ _.
Arguments storage_updateVideoInfo {store} _ _ _.
Arguments storage_updateManyVideoInfo {store} _ _ _.

(** ** Service adapters ([./services/...]) *)

Module Adapter.

(** The members of an adapter that the module uses. An adapter is
    stateless per call, so a provider is a function of the arguments.
    [fetchVideoInfo] is called without [await] and inside [try]: its
    completion is the one the call itself produces. For an adapter whose
    method is an async function that is the promise returned, never a
    throw (see [completion] below). *)
Record t := {
  serviceId : string;
  canHandleLink : string -> bool;
  isCollectionURL : string -> bool;
  getVideoId : string -> string;
  resolveURL : string -> result (list Video.t);
  fetchVideoInfo : jsval -> list string -> result Video.t;
  searchVideos : string -> result (list Video.t);
}.

End Adapter.

(** *** How a fetch ends and what its call gives *)

(** The ways [adapter.fetchVideoInfo(id, fields)] can end: the call returns
    a record, the call throws, or the call returns a promise that settles
    later (an async method, as the [await]s on [resolveURL] and
    [searchVideos] expect of an adapter), with a record or a rejection. *)
Inductive fetch_outcome :=
| Returns (video : Video.t)
| Throws (e : exn)
| Promises (settlement : result Video.t).

(** A promise where a record is expected: it has no own property, so for
    [Video.merge] it is the record without fields. *)
Definition promise_object : Video.t := ∅.

(** What the call itself gives, which is all that code that does not await
    can see: the settlement of a promise is out of its reach. *)
Definition completion (o : fetch_outcome) : result Video.t :=
  match o with
  | Returns video => Ok video
  | Throws e => Throw e
  | Promises _ => Ok promise_object
  end.

(** The fetch fails with [e]: thrown by the call, or the rejection of the
    promise returned. *)
Definition fails_with (o : fetch_outcome) (e : exn) : Prop :=
  o = Throws e \/ o = Promises (Throw e).

(** ** Effects: the cache and the calls that leave the module *)

Inductive loglevel := Warn | Error.

Inductive event :=
| EvLog (level : loglevel) (msg : string)
| EvFetchVideoInfo (service : string) (id : jsval) (fields : list string)
| EvResolveURL (service : string) (url : string)
| EvSearchVideos (service : string) (query : string)
| EvUpdateVideoInfo (video : Video.t)
| EvUpdateManyVideoInfo (videos : list Video.t).

Definition is_adapter_call (e : event) : bool :=
  match e with
  | EvFetchVideoInfo _ _ _ | EvResolveURL _ _ | EvSearchVideos _ _ => true
  | _ => false
  end.

Definition is_cache_write (e : event) : bool :=
  match e with
  | EvUpdateVideoInfo _ | EvUpdateManyVideoInfo _ => true
  | _ => false
  end.

Record world (store : Type) := World {
  cache : store;
  trace : list event;
}.
Arguments World {store} _ _.
Arguments cache {store} _.
Arguments trace {store} _.

(** Computations of the module: state passing with exceptions. *)
Definition M (store A : Type) : Type := world store -> result A * world store.

Definition ret {store A} (a : A) : M store A := fun w => (Ok a, w).

Definition throw {store A} (e : exn) : M store A := fun w => (Throw e, w).

Definition bind {store A B} (m : M store A) (k : A -> M store B) : M store B :=
  fun w =>
    match m w with
    | (Ok a, w') => k a w'
    | (Throw e, w') => (Throw e, w')
    end.

(** [try { body } catch (e) { handler }] *)
Definition try_catch {store A} (body : M store A) (handler : exn -> M store A)
  : M store A :=
  fun w =>
    match body w with
    | (Ok a, w') => (Ok a, w')
    | (Throw e, w') => handler e w'
    end.

Definition emit {store} (e : event) : M store unit :=
  fun w => (Ok tt, World (cache w) (trace w ++ [e])).

(** The completion of a collaborator, taken as the call's own. *)
Definition lift {store A} (r : result A) : M store A := fun w => (r, w).

Declare Scope js_scope.
Delimit Scope js_scope with js.
Notation "x <- c1 ;; c2" := (bind c1 (fun x => c2))
  (at level 100, c1 at next level, right associativity) : js_scope.
Notation "c1 ;; c2" := (bind c1 (fun _ => c2))
  (at level 100, right associativity) : js_scope.

(** A single record or an array of records: the argument of [updateCache]
    and the value [resolveVideoQuery] resolves to. *)
Inductive videos :=
| One (video : Video.t)
| Many (videos : list Video.t).

(** ** The module [infoextract] *)

Section InfoExtract.

Context {store : Type}.

(** [const storage = require("../storage")] *)
Variable storage : Storage store.

(** [const adapters = [ new DailyMotionAdapter(), ... ]]: the configured
    adapters, in order. *)
Variable adapters : list Adapter.t.

(** [URL.parse(str).host] of Node's [url] module; [None] is [null]. *)
Variable URL_parse_host : string -> option string.

(** The member [isSupportedMimeType] of the receiver [this] inside
    [getCachedVideo]; [None] when the receiver has no such member.
    [getCachedVideo] is a function of the module called plainly, as
    [getCachedVideo(service, videoId)], so its receiver is the global
    object of the runtime; the module declares no function of that name.
    [NodeRuntime.this_isSupportedMimeType] below is the value under
    Node. *)
Variable this_isSupportedMimeType : option (jsval -> bool).

Local Open Scope js_scope.

Definition isURL (str : string) : bool :=
  bool_decide (URL_parse_host str <> None).

(** [this.isSupportedMimeType(mime)]: calling a member that is not there
    throws a [TypeError]. *)
Definition call_this_isSupportedMimeType (mime : jsval) : M store bool :=
  match this_isSupportedMimeType with
  | Some f => ret (f mime)
  | None => throw (TypeError "this.isSupportedMimeType is not a function")
  end.

Definition getCachedVideo (service videoId : string)
  : M store (Video.t * list string) :=
  try_catch
    (result <- (fun w => (storage_getVideoInfo storage (cache w) service videoId, w)) ;;
     let video := Video.new result in
     let missingInfo :=
       List.filter (fun p => negb (Video.hasOwnProperty video p))
              (storage_getVideoInfoFields storage (Video.get video "service")) in
     (if truthy (Video.get video "mime")
      then supported <- call_this_isSupportedMimeType (Video.get video "mime") ;;
           if negb supported
           then throw (UnsupportedMimeTypeException (Video.get video "mime"))
           else ret tt
      else ret tt) ;;
     ret (video, missingInfo))
    (fun e =>
       emit (EvLog Error "Failed to get video metadata") ;;
       throw e).

Definition updateCache (videos : videos) : M store unit :=
  match videos with
  | Many vs =>
      emit (EvUpdateManyVideoInfo vs) ;;
      fun w => (Ok tt, World (storage_updateManyVideoInfo storage (cache w) vs) (trace w))
  | One v =>
      emit (EvUpdateVideoInfo v) ;;
      fun w => (Ok tt, World (storage_updateVideoInfo storage (cache w) v) (trace w))
  end.

(** [adapters.find(...)]: the first match, [None] for [undefined]. *)
Definition getServiceAdapter (service : string) : option Adapter.t :=
  find (fun adapter => bool_decide (Adapter.serviceId adapter = service)) adapters.

Definition getServiceAdapterForURL (url : string) : option Adapter.t :=
  find (fun adapter => Adapter.canHandleLink adapter url) adapters.

(** [adapter.fetchVideoInfo(id, fields)] on the outcome of a lookup:
    a member read on [undefined] throws a [TypeError]. *)
Definition call_fetchVideoInfo (adapter : option Adapter.t) (id : jsval)
    (fields : list string) : M store Video.t :=
  match adapter with
  | None => throw (TypeError "Cannot read property 'fetchVideoInfo' of undefined")
  | Some a =>
      emit (EvFetchVideoInfo (Adapter.serviceId a) id fields) ;;
      lift (Adapter.fetchVideoInfo a id fields)
  end.

Definition getVideoInfo (service videoId : string) : M store Video.t :=
  let adapter := getServiceAdapter service in
  cached <- getCachedVideo service videoId ;;
  let '(cachedVideo, missingInfo) := cached in
  if strict_equals (OArray missingInfo) (OPrim (JNum 0))
  then ret cachedVideo
  else
    emit (EvLog Warn "MISSING INFO") ;;
    try_catch
      (fetchedVideo <- call_fetchVideoInfo adapter (Video.get cachedVideo "id") missingInfo ;;
       let video := Video.merge cachedVideo fetchedVideo in
       updateCache (One video) ;;
       ret video)
      (fun e =>
         if instanceof_OutOfQuotaException e
         then
           emit (EvLog Error "Failed to get video info: Out of quota") ;;
           if (length missingInfo <?
               length (storage_getVideoInfoFields storage (Video.get cachedVideo "service")))%nat
           then
             emit (EvLog Warn "Returning incomplete cached result") ;;
             ret cachedVideo
           else throw e
         else
           emit (EvLog Error "Failed to get video info") ;;
           throw e).

Definition searchVideos (service query : string) : M store (list Video.t) :=
  match getServiceAdapter service with
  | None => throw (TypeError "Cannot read property 'searchVideos' of undefined")
  | Some adapter =>
      emit (EvSearchVideos (Adapter.serviceId adapter) query) ;;
      lift (Adapter.searchVideos adapter query)
  end.

Definition resolveVideoQuery (query searchService : string) : M store videos :=
  let results : list Video.t := [] in
  let finish (results : list Video.t) : M store videos :=
    updateCache (Many results) ;;
    ret (Many results) in
  if isURL query then
    match getServiceAdapterForURL query with
    | None => throw (TypeError "Cannot read property 'isCollectionURL' of undefined")
    | Some adapter =>
        if negb (Adapter.isCollectionURL adapter query)
        then
          video <- getVideoInfo (Adapter.serviceId adapter)
                                (Adapter.getVideoId adapter query) ;;
          ret (One video)
        else
          emit (EvResolveURL (Adapter.serviceId adapter) query) ;;
          fetchResults <- lift (Adapter.resolveURL adapter query) ;;
          finish (results ++ fetchResults)%list
    end
  else
    searchResults <- searchVideos searchService query ;;
    finish (results ++ searchResults)%list.

(** *** Vocabulary of the specification *)

(** The world after [log.error] in the [catch] of [getCachedVideo]. *)
Definition logged_failure (w : world store) : world store :=
  World (cache w) (trace w ++ [EvLog Error "Failed to get video metadata"]).

(** The provider's declared schema, as [getCachedVideo] and the quota
    branch ask [storage] for it. *)
Definition schema (video : Video.t) : list string :=
  storage_getVideoInfoFields storage (Video.get video "service").

(** The schema fields that are not on the record. *)
Definition missingFields (video : Video.t) : list string :=
  List.filter (fun p => negb (Video.hasOwnProperty video p)) (schema video).

(** The record passes the validation of [getCachedVideo]: it has no
    [mime] (or a falsy one), or the receiver has the member and the
    member accepts the value. *)
Definition mime_accepted (video : Video.t) : bool :=
  negb (truthy (Video.get video "mime"))
  || match this_isSupportedMimeType with
     | Some f => f (Video.get video "mime")
     | None => false
     end.

(** The lookup that the branch of [resolveVideoQuery] taken for [query]
    performs finds no adapter. *)
Definition no_adapter_found (query searchService : string) : Prop :=
  if isURL query
  then getServiceAdapterForURL query = None
  else getServiceAdapter searchService = None.

End InfoExtract.

(** A call fails with a typed error: it throws, and what it throws is not
    the runtime's [TypeError] of a member read on [undefined]. *)
Definition fails_with_typed_error {A} (r : result A) : Prop :=
  exists e, r = Throw e /\ is_TypeError e = false.

(** The adapter calls and the cache writes among the effects of a run. *)
Definition adapter_calls {store} (w : world store) : list event :=
  List.filter is_adapter_call (trace w).

Definition cache_writes {store} (w : world store) : list event :=
  List.filter is_cache_write (trace w).

(** ** Concrete collaborators *)

(** Under Node the module is not in strict mode and [getCachedVideo] is
    called without a receiver: [this] is the global object, which has no
    member [isSupportedMimeType]. *)
Module NodeRuntime.
Definition this_isSupportedMimeType : option (jsval -> bool) := None.
End NodeRuntime.

Module MapStore.

(** Modelled from the spec: the Cache Store of [../storage], "persistent
    key-value store keyed by (service, videoId)", is not part of the
    sources at hand. Reading a key that is not cached gives the record
    with the key alone ("an empty/partial record is assumed when nothing
    is cached"); a write is an upsert (the fields written replace or
    extend those stored). *)
Abbreviation store := (gmap (string * string) (gmap string jsval)).

Definition key_of (video : Video.t) : option (string * string) :=
  match Video.get video "service", Video.get video "id" with
  | JStr s, JStr i => Some (s, i)
  | _, _ => None
  end.

Definition get (st : store) (service videoId : string) : result Video.t :=
  Ok (default {[ "service" := JStr service; "id" := JStr videoId ]}
              (st !! (service, videoId))).

Definition upsertOne (st : store) (video : Video.t) : store :=
  match key_of video with
  | Some k => <[ k := Video.merge (default ∅ (st !! k)) video ]> st
  | None => st
  end.

Definition upsertMany (st : store) (videos : list Video.t) : store :=
  foldl upsertOne st videos.

(** The schema of a service: the direct adapter also declares [mime]. *)
Definition listMissingFields (service : jsval) : list string :=
  if bool_decide (service = JStr "direct")
  then ["title"; "length"; "mime"]
  else ["title"; "length"].

Definition storage : Storage store := {|
  storage_getVideoInfo := get;
  storage_getVideoInfoFields := listMissingFields;
  storage_updateVideoInfo := upsertOne;
  storage_updateManyVideoInfo := upsertMany;
|}.

End MapStore.

Module BrokenStore.

(** A store whose reads fail (the database is unreachable). *)
Definition storage : Storage unit := {|
  storage_getVideoInfo := fun _ _ _ => Throw (OtherError "SequelizeConnectionError");
  storage_getVideoInfoFields := MapStore.listMissingFields;
  storage_updateVideoInfo := fun st _ => st;
  storage_updateManyVideoInfo := fun st _ => st;
|}.

End BrokenStore.

Module Fixtures.

Definition video (service id : string) (fields : list (string * jsval)) : Video.t :=
  list_to_map (("service", JStr service) :: ("id", JStr id) :: fields).

(** The value a provider has for a field. *)
Definition provider_value (id : jsval) (field : string) : jsval :=
  if String.eqb field "length" then JNum 212
  else match id with JStr i => JStr (field ++ " of " ++ i)%string | _ => JNull end.

(** A provider that answers: the requested fields of the requested id. *)
Definition youtube : Adapter.t := {|
  Adapter.serviceId := "youtube";
  Adapter.canHandleLink := fun url => String.prefix "https://youtube.com/" url;
  Adapter.isCollectionURL := fun url => String.prefix "https://youtube.com/playlist" url;
  Adapter.getVideoId := fun url => String.substring 20 (String.length url - 20) url;
  Adapter.resolveURL := fun url =>
    Ok [video "youtube" "p1" [("title", JStr "first")];
        video "youtube" "p2" [("title", JStr "second")]];
  Adapter.fetchVideoInfo := fun id fields =>
    Ok (list_to_map (("service", JStr "youtube") :: ("id", id)
                       :: map (fun f => (f, provider_value id f)) fields));
  Adapter.searchVideos := fun query =>
    Ok [video "youtube" "s1" [("title", JStr query)]];
|}.

(** A provider whose usage quota is exhausted. *)
Definition vimeo : Adapter.t := {|
  Adapter.serviceId := "vimeo";
  Adapter.canHandleLink := fun url => String.prefix "https://vimeo.com/" url;
  Adapter.isCollectionURL := fun _ => false;
  Adapter.getVideoId := fun url => String.substring 18 (String.length url - 18) url;
  Adapter.resolveURL := fun _ => Throw OutOfQuotaException;
  Adapter.fetchVideoInfo := fun _ _ => Throw OutOfQuotaException;
  Adapter.searchVideos := fun _ => Throw OutOfQuotaException;
|}.

Definition direct : Adapter.t := {|
  Adapter.serviceId := "direct";
  Adapter.canHandleLink := fun url => String.prefix "https://files.example/" url;
  Adapter.isCollectionURL := fun _ => false;
  Adapter.getVideoId := fun url => url;
  Adapter.resolveURL := fun _ => Ok [];
  Adapter.fetchVideoInfo := fun id fields =>
    Ok (list_to_map (map (fun f => (f, provider_value id f)) fields));
  Adapter.searchVideos := fun _ => Ok [];
|}.

Definition adapters : list Adapter.t := [vimeo; youtube; direct].

(** A stand-in for [URL.parse(str).host]: a string with a scheme has a
    host, a string without has none. *)
Definition URL_parse_host (str : string) : option string :=
  if String.prefix "https://" str then Some (String.substring 8 (String.length str - 8) str)
  else None.

Definition world_of (st : MapStore.store) : world MapStore.store := World st [].

Definition cache_of (videos : list Video.t) : MapStore.store :=
  MapStore.upsertMany ∅ videos.

(** Records and caches of the examples. *)
Definition complete_abc : Video.t :=
  video "youtube" "abc" [("title", JStr "A song"); ("length", JNum 212)].

Definition partial_v1 : Video.t :=
  video "vimeo" "v1" [("title", JStr "A talk")].

Definition unplayable : Video.t :=
  video "direct" "https://files.example/a.bin"
        [("title", JStr "a.bin"); ("length", JNum 10);
         ("mime", JStr "video/x-unsupported")].

Definition warm : world MapStore.store :=
  world_of (cache_of [complete_abc; partial_v1; unplayable]).

Definition cold : world MapStore.store := world_of ∅.

(** The same module on the store that cannot be read. *)
Definition getVideoInfo_broken (service videoId : string) : M unit Video.t :=
  getVideoInfo BrokenStore.storage adapters
                         NodeRuntime.this_isSupportedMimeType service videoId.

(** The calls of the examples: the module under Node with the map store
    and the three adapters. *)
Definition getVideoInfo (service videoId : string) : M MapStore.store Video.t :=
  getVideoInfo MapStore.storage adapters NodeRuntime.this_isSupportedMimeType
               service videoId.

Definition resolveVideoQuery (query searchService : string)
  : M MapStore.store videos :=
  resolveVideoQuery MapStore.storage adapters URL_parse_host
                    NodeRuntime.this_isSupportedMimeType query searchService.

End Fixtures.

(** ** The topology view ([ott-vis-panel]): grouping the trees by region *)

Module TopologyView.

Section Regions.

(** [d3.HierarchyNode<TreeNode>]: the grouping reads [tree.data.region]
    and nothing else of a tree. *)
Variable Tree : Type.
Variable region : Tree -> string.

(** [interface PrebuiltRegion] *)
Record PrebuiltRegion := {
  name : string;
  balancerTrees : list Tree;
  monolithTrees : list Tree;
}.

(** A [Map<string, PrebuiltRegion>]: its entries in insertion order. *)
Definition RegionMap : Type := list (string * PrebuiltRegion).

(** [m.has(k)] *)
Fixpoint has (m : RegionMap) (k : string) : bool :=
  match m with
  | [] => false
  | (k', _) :: m' => bool_decide (k' = k) || has m' k
  end.

(** [m.get(k)], [None] for [undefined] *)
Fixpoint get (m : RegionMap) (k : string) : option PrebuiltRegion :=
  match m with
  | [] => None
  | (k', v) :: m' => if bool_decide (k' = k) then Some v else get m' k
  end.

(** [m.set(k, v)]: the value of a key that is there is replaced where it
    stands, a new key goes to the end. *)
Fixpoint set (m : RegionMap) (k : string) (v : PrebuiltRegion) : RegionMap :=
  match m with
  | [] => [(k, v)]
  | (k', v') :: m' =>
      if bool_decide (k' = k) then (k, v) :: m' else (k', v') :: set m' k v
  end.

(** [r.monolithTrees.push(tree)] and [r.balancerTrees.push(tree)] *)
Definition pushMonolithTree (r : PrebuiltRegion) (tree : Tree) : PrebuiltRegion :=
  {| name := name r; balancerTrees := balancerTrees r;
     monolithTrees := monolithTrees r ++ [tree] |}.

Definition pushBalancerTree (r : PrebuiltRegion) (tree : Tree) : PrebuiltRegion :=
  {| name := name r; balancerTrees := balancerTrees r ++ [tree];
     monolithTrees := monolithTrees r |}.

(** The body of the two loops, which differ in the array pushed to: the
    region of the tree gets an entry with two empty arrays if it has none,
    then the tree is pushed onto the entry's array. The entry is an object
    that only the map holds, so the push is seen through the map. *)
Definition addTree (push : PrebuiltRegion -> Tree -> PrebuiltRegion)
    (monolithRegions : RegionMap) (tree : Tree) : RegionMap :=
  let region := region tree in
  let monolithRegions :=
    if negb (has monolithRegions region)
    then set monolithRegions region
             {| name := region; balancerTrees := []; monolithTrees := [] |}
    else monolithRegions in
  match get monolithRegions region with
  | Some r => set monolithRegions region (push r tree)
  | None => monolithRegions (* [?.] on [undefined] *)
  end.

(** The map [monolithRegions] after the two loops: over the monolith trees
    first, over the balancer trees next. *)
Definition monolithRegions (monolithTrees balancerTrees : list Tree) : RegionMap :=
  foldl (addTree pushBalancerTree)
        (foldl (addTree pushMonolithTree) [] monolithTrees)
        balancerTrees.

(** *** Vocabulary *)

(** The trees of a list that are of region [k], in the order of the list. *)
Definition of_region (k : string) (trees : list Tree) : list Tree :=
  List.filter (fun tree => bool_decide (region tree = k)) trees.

(** The number of trees the entries of a map hold. *)
Definition treeCount (m : RegionMap) : nat :=
  sum_list (map (fun e => length (monolithTrees (snd e))
                          + length (balancerTrees (snd e))) m).

(** The distinct strings of a list, each at its first occurrence. *)
Definition first_occurrences (l : list string) : list string :=
  foldl (fun seen k => if bool_decide (k ∈ seen) then seen else seen ++ [k]) [] l.

End Regions.

Arguments name {Tree} _.
Arguments balancerTrees {Tree} _.
Arguments monolithTrees {Tree} _.
Arguments has {Tree} _ _.
Arguments get {Tree} _ _.
Arguments set {Tree} _ _ _.
Arguments treeCount {Tree} _.
Arguments pushMonolithTree {Tree} _ _.
Arguments pushBalancerTree {Tree} _ _.

End TopologyView.

(** A provider that cannot be reached, and three trees in two regions. *)
Module MoreFixtures.

Definition dailymotion : Adapter.t := {|
  Adapter.serviceId := "dailymotion";
  Adapter.canHandleLink := fun url => String.prefix "https://dailymotion.com/" url;
  Adapter.isCollectionURL := fun _ => false;
  Adapter.getVideoId := fun url => String.substring 24 (String.length url - 24) url;
  Adapter.resolveURL := fun _ => Throw (OtherError "ECONNRESET");
  Adapter.fetchVideoInfo := fun _ _ => Throw (OtherError "ECONNRESET");
  Adapter.searchVideos := fun _ => Throw (OtherError "ECONNRESET");
|}.

Definition partial_d1 : Video.t :=
  Fixtures.video "dailymotion" "d1" [("title", JStr "A clip")].

Definition lukewarm : world MapStore.store :=
  Fixtures.world_of (Fixtures.cache_of [partial_d1]).

(** A tree of the topology view: its id and its region. *)
Definition tree : Type := string * string.
Definition region : tree -> string := snd.

Definition monoliths : list tree := [("m1", "ewr"); ("m2", "cdg"); ("m3", "ewr")].
Definition balancers : list tree := [("b1", "cdg"); ("b2", "ewr")].

End MoreFixtures.

(** Adapters whose [fetchVideoInfo] is an async function. *)
Module AsyncFixtures.

(** Out of quota: the promise is rejected. *)
Definition vimeo : Adapter.t := {|
  Adapter.serviceId := "vimeo";
  Adapter.canHandleLink := fun url => String.prefix "https://vimeo.com/" url;
  Adapter.isCollectionURL := fun _ => false;
  Adapter.getVideoId := fun url => String.substring 18 (String.length url - 18) url;
  Adapter.resolveURL := fun _ => Throw OutOfQuotaException;
  Adapter.fetchVideoInfo := fun _ _ => completion (Promises (Throw OutOfQuotaException));
  Adapter.searchVideos := fun _ => Throw OutOfQuotaException;
|}.

(** Unreachable: the promise is rejected with a network error. *)
Definition dailymotion : Adapter.t := {|
  Adapter.serviceId := "dailymotion";
  Adapter.canHandleLink := fun url => String.prefix "https://dailymotion.com/" url;
  Adapter.isCollectionURL := fun _ => false;
  Adapter.getVideoId := fun url => String.substring 24 (String.length url - 24) url;
  Adapter.resolveURL := fun _ => Throw (OtherError "ECONNRESET");
  Adapter.fetchVideoInfo := fun _ _ =>
    completion (Promises (Throw (OtherError "ECONNRESET")));
  Adapter.searchVideos := fun _ => Throw (OtherError "ECONNRESET");
|}.

(** What the youtube provider resolves its promise with. *)
Definition youtube_answer (id : jsval) (fields : list string) : Video.t :=
  list_to_map (("service", JStr "youtube") :: ("id", id)
                 :: map (fun f => (f, Fixtures.provider_value id f)) fields).

(** Answers: the promise resolves with every field asked for. *)
Definition youtube : Adapter.t := {|
  Adapter.serviceId := "youtube";
  Adapter.canHandleLink := fun url => String.prefix "https://youtube.com/" url;
  Adapter.isCollectionURL := fun url => String.prefix "https://youtube.com/playlist" url;
  Adapter.getVideoId := fun url => String.substring 20 (String.length url - 20) url;
  Adapter.resolveURL := fun _ => Ok [];
  Adapter.fetchVideoInfo := fun id fields =>
    completion (Promises (Ok (youtube_answer id fields)));
  Adapter.searchVideos := fun _ => Ok [];
|}.

Definition adapters : list Adapter.t := [vimeo; youtube; dailymotion].

(** The module under Node with the map store and these adapters. *)
Definition getVideoInfo (service videoId : string) : M MapStore.store Video.t :=
  getVideoInfo MapStore.storage adapters NodeRuntime.this_isSupportedMimeType
               service videoId.

Definition resolveVideoQuery (query searchService : string)
  : M MapStore.store videos :=
  resolveVideoQuery MapStore.storage adapters Fixtures.URL_parse_host
                    NodeRuntime.this_isSupportedMimeType query searchService.

End AsyncFixtures.

(** * Properties *)

(** ** Merging records *)

Section Merge.

Implicit Types cached fetched : gmap string jsval.

Lemma merge_lookup cached fetched (f : string) :
  Video.merge cached fetched !! f =
    match fetched !! f with
    | Some v => Some v
    | None => cached !! f
    end.
Proof.
  unfold Video.merge.
  apply (map_fold_weak_ind
           (fun (r b : gmap string jsval) =>
              r !! f = match b !! f with Some v => Some v | None => cached !! f end)).
  - by rewrite lookup_empty.
  - intros i x m r Hi IH.
    destruct (decide (i = f)) as [->|Hne].
    + by rewrite !lookup_insert_eq.
    + by rewrite !lookup_insert_ne.
Qed.

Lemma merge_union cached fetched : Video.merge cached fetched = fetched ∪ cached.
Proof.
  apply map_eq; intros f. rewrite merge_lookup, lookup_union.
  destruct (fetched !! f), (cached !! f); done.
Qed.

Lemma merge_empty_r cached : Video.merge cached ∅ = cached.
Proof. apply map_eq; intros f. by rewrite merge_lookup, lookup_empty. Qed.

Lemma merge_idemp cached fetched :
  Video.merge (Video.merge cached fetched) fetched = Video.merge cached fetched.
Proof.
  apply map_eq; intros f. rewrite !merge_lookup. by destruct (fetched !! f).
Qed.

(** C6. Merging a fetched record over a cached one is right-biased: a
    field the fetched record defines carries the fetched value (also when
    the cached record defines it too), a field only the cached record
    defines carries the cached value, the result has exactly the fields
    of the cached record and the fetched ones, and a field that neither
    record has is not in the result. *)
Theorem merge_right_biased cached fetched :
  (forall f v, fetched !! f = Some v -> Video.merge cached fetched !! f = Some v)
  /\ (forall f v, fetched !! f = None -> cached !! f = Some v ->
                  Video.merge cached fetched !! f = Some v)
  /\ dom (Video.merge cached fetched) = dom cached ∪ dom fetched
  /\ (forall f, fetched !! f = None -> cached !! f = None ->
                Video.merge cached fetched !! f = None).
Proof.
  repeat split.
  - intros f v Hf. by rewrite merge_lookup, Hf.
  - intros f v Hf Hc. by rewrite merge_lookup, Hf.
  - rewrite merge_union, dom_union_L. apply (comm_L (∪)).
  - intros f Hf Hc. by rewrite merge_lookup, Hf.
Qed.

End Merge.

(** ** The metadata resolver *)

Section Resolver.

Context {store : Type}.
Variable storage : Storage store.
Variable adapters : list Adapter.t.
Variable URL_parse_host : string -> option string.
Variable this_isSupportedMimeType : option (jsval -> bool).

Local Abbreviation getCachedVideo' :=
  (getCachedVideo storage this_isSupportedMimeType).
Local Abbreviation getServiceAdapter' := (getServiceAdapter adapters).
Local Abbreviation getServiceAdapterForURL' := (getServiceAdapterForURL adapters).
Local Abbreviation getVideoInfo' :=
  (getVideoInfo storage adapters this_isSupportedMimeType).
Local Abbreviation searchVideos' := (searchVideos (store := store) adapters).
Local Abbreviation resolveVideoQuery' :=
  (resolveVideoQuery storage adapters URL_parse_host this_isSupportedMimeType).
Local Abbreviation isURL' := (isURL URL_parse_host).
Local Abbreviation schema' := (schema storage).
Local Abbreviation missingFields' := (missingFields storage).
Local Abbreviation mime_accepted' := (mime_accepted this_isSupportedMimeType).
Local Abbreviation read w service videoId :=
  (storage_getVideoInfo storage (cache w) service videoId).

Implicit Types w : world store.

(** *** The cache read *)

Lemma getCachedVideo_read_fails w service videoId e :
  read w service videoId = Throw e ->
  getCachedVideo' service videoId w = (Throw e, logged_failure w).
Proof.
  intros Hread. unfold getCachedVideo, try_catch, bind. by rewrite Hread.
Qed.

Lemma getCachedVideo_accepted w service videoId result :
  read w service videoId = Ok result ->
  mime_accepted' (Video.new result) = true ->
  getCachedVideo' service videoId w
  = (Ok (Video.new result, missingFields' (Video.new result)), w).
Proof.
  intros Hread Hmime.
  unfold getCachedVideo, try_catch, bind. rewrite Hread.
  unfold mime_accepted in Hmime.
  destruct (truthy (Video.get (Video.new result) "mime")); [|done].
  unfold call_this_isSupportedMimeType.
  destruct this_isSupportedMimeType as [f|]; [|done].
  simpl in Hmime. unfold ret. by rewrite Hmime.
Qed.

Lemma getCachedVideo_no_member w service videoId result :
  read w service videoId = Ok result ->
  truthy (Video.get (Video.new result) "mime") = true ->
  this_isSupportedMimeType = None ->
  getCachedVideo' service videoId w
  = (Throw (TypeError "this.isSupportedMimeType is not a function"),
     logged_failure w).
Proof.
  intros Hread Hmime Hthis.
  unfold getCachedVideo, try_catch, bind. rewrite Hread, Hmime.
  unfold call_this_isSupportedMimeType. by rewrite Hthis.
Qed.

Lemma getCachedVideo_rejected w service videoId result f :
  read w service videoId = Ok result ->
  truthy (Video.get (Video.new result) "mime") = true ->
  this_isSupportedMimeType = Some f ->
  f (Video.get (Video.new result) "mime") = false ->
  getCachedVideo' service videoId w
  = (Throw (UnsupportedMimeTypeException (Video.get (Video.new result) "mime")),
     logged_failure w).
Proof.
  intros Hread Hmime Hthis Hf.
  unfold getCachedVideo, try_catch, bind. rewrite Hread, Hmime.
  unfold call_this_isSupportedMimeType. rewrite Hthis. unfold ret. by rewrite Hf.
Qed.

(** *** Counting the missing fields *)

Lemma missingFields_length_le video :
  length (missingFields' video) <= length (schema' video).
Proof. apply List.filter_length_le. Qed.

Lemma filter_length_lt {A} (f : A -> bool) (l : list A) (x : A) :
  In x l -> f x = false -> length (List.filter f l) < length l.
Proof.
  induction l as [|y l IH]; simpl; [done|].
  intros [->|Hin] Hx.
  - rewrite Hx. pose proof (List.filter_length_le f l). lia.
  - specialize (IH Hin Hx). destruct (f y); simpl; lia.
Qed.

Lemma filter_all {A} (f : A -> bool) (l : list A) :
  (forall x, In x l -> f x = true) -> List.filter f l = l.
Proof.
  induction l as [|y l IH]; simpl; [done|].
  intros H. rewrite (H y) by auto. f_equal. apply IH. auto.
Qed.

Lemma missingFields_some_present video p :
  In p (schema' video) -> Video.hasOwnProperty video p = true ->
  (length (missingFields' video) <? length (schema' video))%nat = true.
Proof.
  intros Hin Hp. apply Nat.ltb_lt. unfold missingFields.
  apply (filter_length_lt _ _ p Hin). by rewrite Hp.
Qed.

Lemma missingFields_none_present video :
  (forall p, In p (schema' video) -> Video.hasOwnProperty video p = false) ->
  missingFields' video = schema' video.
Proof.
  intros H. unfold missingFields. apply filter_all.
  intros p Hp. by rewrite (H p Hp).
Qed.

Lemma missingFields_all_present video :
  (forall p, In p (schema' video) -> Video.hasOwnProperty video p = true) ->
  missingFields' video = [].
Proof.
  intros H. unfold missingFields.
  induction (schema' video) as [|q l IH]; simpl; [done|].
  rewrite (H q) by (by left). simpl. apply IH. intros p Hp. apply H. by right.
Qed.

(** *** The resolver after a cache read that passed *)

(** The comparison [missingInfo === 0] is false for every array, so the
    resolver goes on to the adapter after every cache read that passed. *)
Lemma strict_equals_array_zero (l : list string) :
  strict_equals (OArray l) (OPrim (JNum 0)) = false.
Proof. reflexivity. Qed.

Lemma getVideoInfo_cached w service videoId cachedVideo missingInfo :
  getCachedVideo' service videoId w = (Ok (cachedVideo, missingInfo), w) ->
  getVideoInfo' service videoId w
  = try_catch
      (bind (call_fetchVideoInfo (getServiceAdapter' service)
                                 (Video.get cachedVideo "id") missingInfo)
            (fun fetchedVideo =>
               bind (updateCache storage (One (Video.merge cachedVideo fetchedVideo)))
                    (fun _ => ret (Video.merge cachedVideo fetchedVideo))))
      (fun e =>
         if instanceof_OutOfQuotaException e
         then bind (emit (EvLog Error "Failed to get video info: Out of quota"))
                   (fun _ =>
                      if (length missingInfo <? length (schema' cachedVideo))%nat
                      then bind (emit (EvLog Warn "Returning incomplete cached result"))
                                (fun _ => ret cachedVideo)
                      else throw e)
         else bind (emit (EvLog Error "Failed to get video info"))
                   (fun _ => throw e))
      (World (cache w) (trace w ++ [EvLog Warn "MISSING INFO"])).
Proof.
  intros Hc. unfold getVideoInfo at 1. unfold bind at 1. rewrite Hc.
  rewrite strict_equals_array_zero. reflexivity.
Qed.

Lemma getVideoInfo_cache_throws w service videoId e w' :
  getCachedVideo' service videoId w = (Throw e, w') ->
  getVideoInfo' service videoId w = (Throw e, w').
Proof.
  intros Hc. unfold getVideoInfo, bind. by rewrite Hc.
Qed.

(** The three outcomes of the adapter call. *)
Lemma getVideoInfo_fetched w service videoId result a fetched :
  read w service videoId = Ok result ->
  mime_accepted' (Video.new result) = true ->
  getServiceAdapter' service = Some a ->
  Adapter.fetchVideoInfo a (Video.get (Video.new result) "id")
                         (missingFields' (Video.new result)) = Ok fetched ->
  getVideoInfo' service videoId w
  = (Ok (Video.merge (Video.new result) fetched),
     World (storage_updateVideoInfo storage (cache w)
              (Video.merge (Video.new result) fetched))
           (trace w ++ [EvLog Warn "MISSING INFO";
                        EvFetchVideoInfo (Adapter.serviceId a)
                          (Video.get (Video.new result) "id")
                          (missingFields' (Video.new result));
                        EvUpdateVideoInfo (Video.merge (Video.new result) fetched)])).
Proof.
  intros Hread Hmime Ha Hfetch.
  rewrite (getVideoInfo_cached _ _ _ _ _ (getCachedVideo_accepted _ _ _ _ Hread Hmime)).
  rewrite Ha. unfold try_catch, bind, call_fetchVideoInfo, bind, emit, lift. simpl.
  rewrite Hfetch. simpl. by rewrite <- !app_assoc.
Qed.

Lemma getVideoInfo_fetch_throws w service videoId result a e :
  read w service videoId = Ok result ->
  mime_accepted' (Video.new result) = true ->
  getServiceAdapter' service = Some a ->
  Adapter.fetchVideoInfo a (Video.get (Video.new result) "id")
                         (missingFields' (Video.new result)) = Throw e ->
  instanceof_OutOfQuotaException e = false ->
  getVideoInfo' service videoId w
  = (Throw e,
     World (cache w)
           (trace w ++ [EvLog Warn "MISSING INFO";
                        EvFetchVideoInfo (Adapter.serviceId a)
                          (Video.get (Video.new result) "id")
                          (missingFields' (Video.new result));
                        EvLog Error "Failed to get video info"])).
Proof.
  intros Hread Hmime Ha Hfetch He.
  rewrite (getVideoInfo_cached _ _ _ _ _ (getCachedVideo_accepted _ _ _ _ Hread Hmime)).
  rewrite Ha. unfold try_catch, bind, call_fetchVideoInfo, bind, emit, lift. simpl.
  rewrite Hfetch, He. simpl. by rewrite <- !app_assoc.
Qed.

Lemma getVideoInfo_out_of_quota w service videoId result a :
  read w service videoId = Ok result ->
  mime_accepted' (Video.new result) = true ->
  getServiceAdapter' service = Some a ->
  Adapter.fetchVideoInfo a (Video.get (Video.new result) "id")
                         (missingFields' (Video.new result))
  = Throw OutOfQuotaException ->
  getVideoInfo' service videoId w
  = if (length (missingFields' (Video.new result))
        <? length (schema' (Video.new result)))%nat
    then (Ok (Video.new result),
          World (cache w)
                (trace w ++ [EvLog Warn "MISSING INFO";
                             EvFetchVideoInfo (Adapter.serviceId a)
                               (Video.get (Video.new result) "id")
                               (missingFields' (Video.new result));
                             EvLog Error "Failed to get video info: Out of quota";
                             EvLog Warn "Returning incomplete cached result"]))
    else (Throw OutOfQuotaException,
          World (cache w)
                (trace w ++ [EvLog Warn "MISSING INFO";
                             EvFetchVideoInfo (Adapter.serviceId a)
                               (Video.get (Video.new result) "id")
                               (missingFields' (Video.new result));
                             EvLog Error "Failed to get video info: Out of quota"])).
Proof.
  intros Hread Hmime Ha Hfetch.
  rewrite (getVideoInfo_cached _ _ _ _ _ (getCachedVideo_accepted _ _ _ _ Hread Hmime)).
  rewrite Ha. unfold try_catch, bind, call_fetchVideoInfo, bind, emit, lift. simpl.
  rewrite Hfetch. simpl.
  destruct (_ <? _)%nat; simpl; by rewrite <- !app_assoc.
Qed.

(** *** Validation of the mime type *)

(** With a receiver that has the member, a cached record whose [mime] the
    member refuses is rejected with the exception of that name. *)
Lemma getVideoInfo_mime_rejected w service videoId result f :
  read w service videoId = Ok result ->
  truthy (Video.get (Video.new result) "mime") = true ->
  this_isSupportedMimeType = Some f ->
  f (Video.get (Video.new result) "mime") = false ->
  getVideoInfo' service videoId w
  = (Throw (UnsupportedMimeTypeException (Video.get (Video.new result) "mime")),
     logged_failure w).
Proof.
  intros Hread Hmime Hthis Hf. apply getVideoInfo_cache_throws.
  by apply getCachedVideo_rejected with f.
Qed.

(** With a receiver that has no such member, every cached record with a
    truthy [mime], supported or not, ends in a [TypeError]. *)
Lemma getVideoInfo_mime_no_member w service videoId result :
  read w service videoId = Ok result ->
  truthy (Video.get (Video.new result) "mime") = true ->
  this_isSupportedMimeType = None ->
  getVideoInfo' service videoId w
  = (Throw (TypeError "this.isSupportedMimeType is not a function"),
     logged_failure w).
Proof.
  intros Hread Hmime Hthis. apply getVideoInfo_cache_throws.
  by apply getCachedVideo_no_member with result.
Qed.

(** *** The fast path *)

(** A cached record with every schema field present still goes to the
    adapter, asked for no field. *)
Lemma getVideoInfo_complete_record_fetches w service videoId result a fetched :
  read w service videoId = Ok result ->
  mime_accepted' (Video.new result) = true ->
  (forall p, In p (schema' (Video.new result)) ->
             Video.hasOwnProperty (Video.new result) p = true) ->
  getServiceAdapter' service = Some a ->
  Adapter.fetchVideoInfo a (Video.get (Video.new result) "id") [] = Ok fetched ->
  trace (snd (getVideoInfo' service videoId w))
  = trace w ++ [EvLog Warn "MISSING INFO";
                EvFetchVideoInfo (Adapter.serviceId a)
                                 (Video.get (Video.new result) "id") [];
                EvUpdateVideoInfo (Video.merge (Video.new result) fetched)].
Proof.
  intros Hread Hmime Hall Ha Hfetch.
  pose proof (missingFields_all_present _ Hall) as Hmiss.
  rewrite <- Hmiss in Hfetch.
  rewrite (getVideoInfo_fetched _ _ _ _ _ _ Hread Hmime Ha Hfetch).
  simpl. by rewrite Hmiss.
Qed.

(** *** Quota fallback *)

(** A call that returns a promise, whatever the promise settles with: the
    promise is merged as it is, so the record returned and written has the
    fields of the cached record and no other, and nothing is thrown. *)
Lemma getVideoInfo_promised w service videoId result a settlement :
  read w service videoId = Ok result ->
  mime_accepted' (Video.new result) = true ->
  getServiceAdapter' service = Some a ->
  Adapter.fetchVideoInfo a (Video.get (Video.new result) "id")
                         (missingFields' (Video.new result))
  = completion (Promises settlement) ->
  getVideoInfo' service videoId w
  = (Ok (Video.new result),
     World (storage_updateVideoInfo storage (cache w) (Video.new result))
           (trace w ++ [EvLog Warn "MISSING INFO";
                        EvFetchVideoInfo (Adapter.serviceId a)
                          (Video.get (Video.new result) "id")
                          (missingFields' (Video.new result));
                        EvUpdateVideoInfo (Video.new result)])).
Proof.
  intros Hread Hmime Ha Hfetch. simpl in Hfetch.
  rewrite (getVideoInfo_fetched _ _ _ _ _ _ Hread Hmime Ha Hfetch).
  unfold promise_object. by rewrite merge_empty_r.
Qed.

(** C2. When the cached record (read and validated) has at least one
    field of the provider's schema and the adapter's [fetchVideoInfo] for
    the missing fields fails with the quota-exceeded exception, be it
    thrown by the call or the rejection of the promise the call returns,
    [getVideoInfo] returns the cached record and throws nothing. *)
Theorem quota_degrades_to_cached w service videoId result a p o :
  read w service videoId = Ok result ->
  mime_accepted' (Video.new result) = true ->
  In p (schema' (Video.new result)) ->
  Video.hasOwnProperty (Video.new result) p = true ->
  getServiceAdapter' service = Some a ->
  Adapter.fetchVideoInfo a (Video.get (Video.new result) "id")
                         (missingFields' (Video.new result))
  = completion o ->
  fails_with o OutOfQuotaException ->
  fst (getVideoInfo' service videoId w) = Ok (Video.new result).
Proof.
  intros Hread Hmime Hin Hp Ha Hfetch [->| ->].
  - rewrite (getVideoInfo_out_of_quota _ _ _ _ _ Hread Hmime Ha Hfetch).
    by rewrite (missingFields_some_present _ _ Hin Hp).
  - by rewrite (getVideoInfo_promised _ _ _ _ _ _ Hread Hmime Ha Hfetch).
Qed.

(** The throwing call on a cached record without fields. When the cached
    record has no field of the provider's schema (the missing fields are
    the whole schema) and the call of [fetchVideoInfo] itself throws the
    quota-exceeded exception, [getVideoInfo] throws that exception and
    returns no record. *)
Theorem quota_without_cache_propagates w service videoId result a :
  read w service videoId = Ok result ->
  mime_accepted' (Video.new result) = true ->
  (forall p, In p (schema' (Video.new result)) ->
             Video.hasOwnProperty (Video.new result) p = false) ->
  getServiceAdapter' service = Some a ->
  Adapter.fetchVideoInfo a (Video.get (Video.new result) "id")
                         (schema' (Video.new result))
  = Throw OutOfQuotaException ->
  missingFields' (Video.new result) = schema' (Video.new result)
  /\ fst (getVideoInfo' service videoId w) = Throw OutOfQuotaException.
Proof.
  intros Hread Hmime Hnone Ha Hfetch.
  pose proof (missingFields_none_present _ Hnone) as Hall.
  split; [done|].
  rewrite <- Hall in Hfetch.
  rewrite (getVideoInfo_out_of_quota _ _ _ _ _ Hread Hmime Ha Hfetch).
  rewrite Hall, Nat.ltb_irrefl. done.
Qed.

(** C10. When [getVideoInfo] takes the quota branch and returns the
    cached record, it issues no cache write: the cache is the one before
    the call, and the call has logged and called the adapter once, no
    more. *)
Theorem quota_degradation_writes_nothing w service videoId result a video :
  read w service videoId = Ok result ->
  mime_accepted' (Video.new result) = true ->
  getServiceAdapter' service = Some a ->
  Adapter.fetchVideoInfo a (Video.get (Video.new result) "id")
                         (missingFields' (Video.new result))
  = Throw OutOfQuotaException ->
  fst (getVideoInfo' service videoId w) = Ok video ->
  video = Video.new result
  /\ cache (snd (getVideoInfo' service videoId w)) = cache w
  /\ exists events,
      trace (snd (getVideoInfo' service videoId w)) = trace w ++ events
      /\ List.filter is_cache_write events = [].
Proof.
  intros Hread Hmime Ha Hfetch.
  rewrite (getVideoInfo_out_of_quota _ _ _ _ _ Hread Hmime Ha Hfetch).
  destruct (_ <? _)%nat; simpl; [|done].
  intros [= <-]. repeat split. eexists; split; [reflexivity|done].
Qed.

(** *** Errors of the cache read *)

(** C9. When the read of the cache store throws, [getVideoInfo] throws
    the same exception; the cache is unchanged and the only effect is the
    error log: no adapter is called and no write is issued. *)
Theorem cache_read_error_propagates w service videoId e :
  read w service videoId = Throw e ->
  fst (getVideoInfo' service videoId w) = Throw e
  /\ cache (snd (getVideoInfo' service videoId w)) = cache w
  /\ exists events,
      trace (snd (getVideoInfo' service videoId w)) = trace w ++ events
      /\ List.filter is_adapter_call events = []
      /\ List.filter is_cache_write events = [].
Proof.
  intros Hread.
  rewrite (getVideoInfo_cache_throws _ _ _ _ _
             (getCachedVideo_read_fails _ _ _ _ Hread)).
  simpl. repeat split. eexists; split; [reflexivity|done].
Qed.

(** *** The query resolver *)

Lemma getServiceAdapterForURL_Some query a :
  getServiceAdapterForURL' query = Some a ->
  In a adapters /\ Adapter.canHandleLink a query = true.
Proof. apply List.find_some. Qed.

Lemma getServiceAdapter_of_member a :
  In a adapters -> exists a', getServiceAdapter' (Adapter.serviceId a) = Some a'.
Proof.
  intros Hin. unfold getServiceAdapter.
  destruct (find _ adapters) as [a'|] eqn:Hfind; [by exists a'|].
  pose proof (List.find_none _ _ Hfind a Hin) as Hno. simpl in Hno.
  by rewrite bool_decide_eq_false in Hno.
Qed.

Lemma resolveVideoQuery_single w query searchService a :
  isURL' query = true ->
  getServiceAdapterForURL' query = Some a ->
  Adapter.isCollectionURL a query = false ->
  resolveVideoQuery' query searchService w
  = match getVideoInfo' (Adapter.serviceId a) (Adapter.getVideoId a query) w with
    | (Ok video, w') => (Ok (One video), w')
    | (Throw e, w') => (Throw e, w')
    end.
Proof.
  intros Hurl Ha Hcoll. unfold resolveVideoQuery. rewrite Hurl, Ha, Hcoll. simpl.
  unfold bind at 1. by destruct (getVideoInfo _ _ _ _ _ w) as [[video|e] w'].
Qed.

(** C7. In every branch of [resolveVideoQuery], the records the adapter
    gives are written to the cache store before they are returned: the
    merged record of the single-item branch with [updateVideoInfo], the
    records of a collection URL and of a search with
    [updateManyVideoInfo]; the write is the last effect of the call. *)
Theorem records_written_back w query searchService :
  (forall a a' result fetched,
      isURL' query = true ->
      getServiceAdapterForURL' query = Some a ->
      Adapter.isCollectionURL a query = false ->
      read w (Adapter.serviceId a) (Adapter.getVideoId a query) = Ok result ->
      mime_accepted' (Video.new result) = true ->
      getServiceAdapter' (Adapter.serviceId a) = Some a' ->
      Adapter.fetchVideoInfo a' (Video.get (Video.new result) "id")
                             (missingFields' (Video.new result)) = Ok fetched ->
      let video := Video.merge (Video.new result) fetched in
      exists events,
        resolveVideoQuery' query searchService w
        = (Ok (One video),
           World (storage_updateVideoInfo storage (cache w) video)
                 (trace w ++ events ++ [EvUpdateVideoInfo video])))
  /\ (forall a fetchResults,
      isURL' query = true ->
      getServiceAdapterForURL' query = Some a ->
      Adapter.isCollectionURL a query = true ->
      Adapter.resolveURL a query = Ok fetchResults ->
      exists events,
        resolveVideoQuery' query searchService w
        = (Ok (Many fetchResults),
           World (storage_updateManyVideoInfo storage (cache w) fetchResults)
                 (trace w ++ events ++ [EvUpdateManyVideoInfo fetchResults])))
  /\ (forall a searchResults,
      isURL' query = false ->
      getServiceAdapter' searchService = Some a ->
      Adapter.searchVideos a query = Ok searchResults ->
      exists events,
        resolveVideoQuery' query searchService w
        = (Ok (Many searchResults),
           World (storage_updateManyVideoInfo storage (cache w) searchResults)
                 (trace w ++ events ++ [EvUpdateManyVideoInfo searchResults]))).
Proof.
  split; [|split].
  - intros a a' result fetched Hurl Ha Hcoll Hread Hmime Ha' Hfetch video.
    rewrite (resolveVideoQuery_single _ _ _ _ Hurl Ha Hcoll).
    rewrite (getVideoInfo_fetched _ _ _ _ _ _ Hread Hmime Ha' Hfetch).
    by eexists [_; _].
  - intros a fetchResults Hurl Ha Hcoll Hres.
    unfold resolveVideoQuery. rewrite Hurl, Ha, Hcoll. simpl.
    unfold bind, emit, lift. simpl. rewrite Hres. simpl.
    eexists [_]. by rewrite <- !app_assoc.
  - intros a searchResults Hurl Ha Hsearch.
    unfold resolveVideoQuery. rewrite Hurl.
    unfold bind, searchVideos. rewrite Ha.
    unfold bind, emit, lift. simpl. rewrite Hsearch. simpl.
    eexists [_]. by rewrite <- !app_assoc.
Qed.

(** C5, as the code has it. When the lookup of the branch taken finds no
    adapter, [resolveVideoQuery] throws the [TypeError] of a member read
    on [undefined]; it returns no record and has no effect (no adapter
    call, no cache write, no log). [searchVideos] does the same for a
    service that no adapter has. *)
Theorem missing_adapter_TypeError w query searchService :
  no_adapter_found adapters URL_parse_host query searchService ->
  (exists msg, resolveVideoQuery' query searchService w = (Throw (TypeError msg), w))
  /\ (getServiceAdapter' searchService = None ->
      exists msg, searchVideos' searchService query w = (Throw (TypeError msg), w)).
Proof.
  unfold no_adapter_found. intros Hnone. split.
  - unfold resolveVideoQuery. destruct (isURL' query).
    + rewrite Hnone. by eexists.
    + unfold bind, searchVideos. rewrite Hnone. by eexists.
  - intros Hs. unfold searchVideos. rewrite Hs. by eexists.
Qed.

(** *** The adapter registry *)

Lemma find_first_match {A} (f : A -> bool) (l : list A) :
  match find f l with
  | Some x => exists before after,
      l = before ++ x :: after /\ f x = true
      /\ Forall (fun y => f y = false) before
  | None => Forall (fun y => f y = false) l
  end.
Proof.
  induction l as [|y l IH]; simpl; [by constructor|].
  destruct (f y) eqn:Hy.
  - exists [], l. by repeat split.
  - destruct (find f l) as [x|].
    + destruct IH as (before & after & -> & Hx & Hbefore).
      exists (y :: before), after. repeat split; [done|by constructor].
    + by constructor.
Qed.

Lemma NoDup_map_inj {A B} (f : A -> B) (l : list A) (x y : A) :
  NoDup (map f l) -> In x l -> In y l -> f x = f y -> x = y.
Proof.
  induction l as [|z l IH]; simpl; [done|].
  intros Hnd Hx Hy Hxy. inversion Hnd as [|? ? Hnotin Hnd']; subst.
  destruct Hx as [->|Hx], Hy as [->|Hy]; [done| | |by apply IH].
  - exfalso. apply Hnotin. rewrite Hxy. apply list_elem_of_In, in_map, Hy.
  - exfalso. apply Hnotin. rewrite <- Hxy. apply list_elem_of_In, in_map, Hx.
Qed.

(** X1. [getServiceAdapter] gives the first configured adapter whose
    [serviceId] is the service asked for: every adapter before it has
    another id; it gives [undefined] only when no adapter has the id. *)
Theorem getServiceAdapter_first_match service :
  match getServiceAdapter' service with
  | Some a => exists before after,
      adapters = before ++ a :: after
      /\ Adapter.serviceId a = service
      /\ Forall (fun b => Adapter.serviceId b <> service) before
  | None => Forall (fun b => Adapter.serviceId b <> service) adapters
  end.
Proof.
  unfold getServiceAdapter.
  pose proof (find_first_match
                (fun adapter => bool_decide (Adapter.serviceId adapter = service))
                adapters) as H.
  destruct (find _ adapters) as [a|].
  - destruct H as (before & after & Heq & Ha & Hbefore).
    exists before, after. repeat split; [done|by apply bool_decide_eq_true in Ha|].
    eapply Forall_impl; [exact Hbefore|]. intros b Hb. by apply bool_decide_eq_false in Hb.
  - eapply Forall_impl; [exact H|]. intros b Hb. by apply bool_decide_eq_false in Hb.
Qed.

(** X2. [getServiceAdapterForURL] gives the first configured adapter that
    can handle the link: of two adapters that both accept a URL the earlier
    one wins, whatever the later one is; it gives [undefined] only when no
    adapter accepts the URL. *)
Theorem getServiceAdapterForURL_first_match url :
  match getServiceAdapterForURL' url with
  | Some a => exists before after,
      adapters = before ++ a :: after
      /\ Adapter.canHandleLink a url = true
      /\ Forall (fun b => Adapter.canHandleLink b url = false) before
  | None => Forall (fun b => Adapter.canHandleLink b url = false) adapters
  end.
Proof.
  unfold getServiceAdapterForURL.
  apply (find_first_match (fun adapter => Adapter.canHandleLink adapter url)).
Qed.

(** X3. When the configured adapters have pairwise distinct [serviceId]s,
    looking an adapter up by its own id gives that adapter back. *)
Theorem getServiceAdapter_of_configured a :
  NoDup (map Adapter.serviceId adapters) ->
  In a adapters ->
  getServiceAdapter' (Adapter.serviceId a) = Some a.
Proof.
  intros Hnd Hin.
  destruct (getServiceAdapter_of_member a Hin) as [a' Ha'].
  rewrite Ha'. f_equal.
  destruct (List.find_some _ _ Ha') as [Hin' Hid].
  apply bool_decide_eq_true in Hid.
  by apply (NoDup_map_inj Adapter.serviceId adapters).
Qed.

(** X4. With distinct [serviceId]s a single-item URL goes to the adapter
    that accepted it: the one adapter call is that adapter's
    [fetchVideoInfo], for the id it extracts and the fields the cached
    record misses. When the call returns a record, [resolveVideoQuery]
    returns the cached record merged with it; when the call returns a
    promise, the promise is merged without being awaited and the record
    returned has the cached fields only; when the call throws, the only
    record that can come back is the cached one. *)
Theorem single_item_fetched_by_url_adapter w query searchService a result o :
  NoDup (map Adapter.serviceId adapters) ->
  isURL' query = true ->
  getServiceAdapterForURL' query = Some a ->
  Adapter.isCollectionURL a query = false ->
  read w (Adapter.serviceId a) (Adapter.getVideoId a query) = Ok result ->
  mime_accepted' (Video.new result) = true ->
  Adapter.fetchVideoInfo a (Video.get (Video.new result) "id")
                         (missingFields' (Video.new result)) = completion o ->
  List.filter is_adapter_call
    (drop (length (trace w))
          (trace (snd (resolveVideoQuery' query searchService w))))
  = [EvFetchVideoInfo (Adapter.serviceId a) (Video.get (Video.new result) "id")
                      (missingFields' (Video.new result))]
  /\ match o with
     | Returns fetched =>
         fst (resolveVideoQuery' query searchService w)
         = Ok (One (Video.merge (Video.new result) fetched))
     | Promises _ =>
         fst (resolveVideoQuery' query searchService w) = Ok (One (Video.new result))
     | Throws _ =>
         forall video,
           fst (resolveVideoQuery' query searchService w) = Ok video ->
           video = One (Video.new result)
     end.
Proof.
  intros Hnd Hurl Ha Hcoll Hread Hmime Hfetch.
  rewrite (resolveVideoQuery_single _ _ _ _ Hurl Ha Hcoll).
  destruct (getServiceAdapterForURL_Some _ _ Ha) as [Hin _].
  pose proof (getServiceAdapter_of_configured a Hnd Hin) as Hsame.
  destruct o as [fetched|e|settlement].
  - rewrite (getVideoInfo_fetched _ _ _ _ _ _ Hread Hmime Hsame Hfetch). simpl.
    by rewrite drop_app_length.
  - simpl in Hfetch. destruct (instanceof_OutOfQuotaException e) eqn:He.
    + destruct e; try discriminate.
      rewrite (getVideoInfo_out_of_quota _ _ _ _ _ Hread Hmime Hsame Hfetch).
      destruct (_ <? _)%nat; simpl; rewrite drop_app_length; (split; [done|]).
      * by intros video [= <-].
      * by intros video [=].
    + rewrite (getVideoInfo_fetch_throws _ _ _ _ _ _ Hread Hmime Hsame Hfetch He).
      simpl. rewrite drop_app_length. split; [done|]. by intros video [=].
  - rewrite (getVideoInfo_promised _ _ _ _ _ _ Hread Hmime Hsame Hfetch). simpl.
    by rewrite drop_app_length.
Qed.

(** *** Every path of [getVideoInfo] *)

Lemma getCachedVideo_outcome w service videoId :
  (exists cachedVideo,
      getCachedVideo' service videoId w
      = (Ok (cachedVideo, missingFields' cachedVideo), w))
  \/ (exists e, getCachedVideo' service videoId w = (Throw e, logged_failure w)).
Proof.
  unfold getCachedVideo, try_catch, bind.
  destruct (storage_getVideoInfo storage (cache w) service videoId) as [result|e];
    [|right; by eexists].
  destruct (truthy (Video.get (Video.new result) "mime")); [|left; by eexists].
  unfold call_this_isSupportedMimeType.
  destruct this_isSupportedMimeType as [f|]; [|right; by eexists].
  unfold ret. destruct (f _); simpl; [left|right]; by eexists.
Qed.

(** The five ways a call of [getVideoInfo] ends. *)
Lemma getVideoInfo_outcome w service videoId :
  (exists e, getVideoInfo' service videoId w = (Throw e, logged_failure w))
  \/ (exists msg,
         getVideoInfo' service videoId w
         = (Throw (TypeError msg),
            World (cache w) (trace w ++ [EvLog Warn "MISSING INFO";
                                         EvLog Error "Failed to get video info"])))
  \/ (exists video fetch,
         is_adapter_call fetch = true /\ is_cache_write fetch = false
         /\ getVideoInfo' service videoId w
            = (Ok video,
               World (storage_updateVideoInfo storage (cache w) video)
                     (trace w ++ [EvLog Warn "MISSING INFO"; fetch;
                                  EvUpdateVideoInfo video])))
  \/ (exists video fetch,
         is_adapter_call fetch = true /\ is_cache_write fetch = false
         /\ getVideoInfo' service videoId w
            = (Ok video,
               World (cache w)
                     (trace w ++ [EvLog Warn "MISSING INFO"; fetch;
                                  EvLog Error "Failed to get video info: Out of quota";
                                  EvLog Warn "Returning incomplete cached result"])))
  \/ (exists e fetch msg,
         is_adapter_call fetch = true /\ is_cache_write fetch = false
         /\ getVideoInfo' service videoId w
            = (Throw e,
               World (cache w)
                     (trace w ++ [EvLog Warn "MISSING INFO"; fetch; EvLog Error msg]))).
Proof.
  destruct (getCachedVideo_outcome w service videoId) as [[cv Hc]|[e Hc]].
  - rewrite (getVideoInfo_cached _ _ _ _ _ Hc).
    unfold try_catch, bind, call_fetchVideoInfo.
    destruct (getServiceAdapter' service) as [a|]; simpl.
    + unfold bind, emit, lift. simpl.
      destruct (Adapter.fetchVideoInfo a _ _) as [fetched|e]; simpl.
      * right; right; left. eexists _, _.
        repeat split; [..|by rewrite <- ?app_assoc]; reflexivity.
      * destruct (instanceof_OutOfQuotaException e); simpl.
        -- destruct (_ <? _)%nat; simpl.
           ++ right; right; right; left. eexists _, _.
              repeat split; [..|by rewrite <- ?app_assoc]; reflexivity.
           ++ right; right; right; right. eexists _, _, _.
              repeat split; [..|by rewrite <- ?app_assoc]; reflexivity.
        -- right; right; right; right. eexists _, _, _.
           repeat split; [..|by rewrite <- ?app_assoc]; reflexivity.
    + right; left. eexists. unfold emit, throw. simpl. by rewrite <- ?app_assoc.
  - left. exists e. by apply getVideoInfo_cache_throws.
Qed.

(** X5. On every path [getVideoInfo] calls an adapter at most once and
    writes the cache at most once; it writes only the record it returns,
    with [updateVideoInfo], and a call that writes nothing leaves the cache
    as it was. *)
Theorem getVideoInfo_effects_bounded w service videoId :
  exists events,
    trace (snd (getVideoInfo' service videoId w)) = trace w ++ events
    /\ length (List.filter is_adapter_call events) <= 1
    /\ match List.filter is_cache_write events with
       | [] => cache (snd (getVideoInfo' service videoId w)) = cache w
       | [EvUpdateVideoInfo video] =>
           fst (getVideoInfo' service videoId w) = Ok video
           /\ cache (snd (getVideoInfo' service videoId w))
              = storage_updateVideoInfo storage (cache w) video
       | _ => False
       end.
Proof.
  destruct (getVideoInfo_outcome w service videoId)
    as [(e & ->)|[(msg & ->)|[(v & f & Ha & Hw & ->)|[(v & f & Ha & Hw & ->)
                                                      |(e & f & msg & Ha & Hw & ->)]]]];
    eexists; (split; [reflexivity|]); simpl; rewrite ?Ha, ?Hw; simpl; auto.
Qed.

(** X6. [getVideoInfo] never fails silently and never fails half-way: when
    it throws, the last thing it did was to log an error, and the cache is
    as it was before the call. *)
Theorem getVideoInfo_throw_logged w service videoId e :
  fst (getVideoInfo' service videoId w) = Throw e ->
  cache (snd (getVideoInfo' service videoId w)) = cache w
  /\ exists events msg,
      trace (snd (getVideoInfo' service videoId w))
      = trace w ++ events ++ [EvLog Error msg]
      /\ List.filter is_cache_write events = [].
Proof.
  destruct (getVideoInfo_outcome w service videoId)
    as [(e' & ->)|[(msg & ->)|[(v & f & Ha & Hw & ->)|[(v & f & Ha & Hw & ->)
                                                       |(e' & f & msg & Ha & Hw & ->)]]]];
    simpl; intros He; try discriminate; split; try reflexivity.
  - by exists [], "Failed to get video metadata".
  - by exists [EvLog Warn "MISSING INFO"], "Failed to get video info".
  - exists [EvLog Warn "MISSING INFO"; f], msg. split; [done|]. simpl. by rewrite Hw.
Qed.

(** X7. What becomes of a fetch that fails with an exception other than
    the quota one depends on how it fails. Thrown by the call of
    [fetchVideoInfo] itself, the exception is not masked: [getVideoInfo]
    throws it, also when the cached record has fields to fall back on, and
    writes nothing. Delivered as the rejection of the promise the call
    returns, it is masked: the call is not awaited, so [getVideoInfo]
    returns the cached record and writes it back. *)
Theorem adapter_failure_thrown_or_masked w service videoId result a o e :
  read w service videoId = Ok result ->
  mime_accepted' (Video.new result) = true ->
  getServiceAdapter' service = Some a ->
  Adapter.fetchVideoInfo a (Video.get (Video.new result) "id")
                         (missingFields' (Video.new result)) = completion o ->
  fails_with o e ->
  instanceof_OutOfQuotaException e = false ->
  match o with
  | Throws _ =>
      fst (getVideoInfo' service videoId w) = Throw e
      /\ cache (snd (getVideoInfo' service videoId w)) = cache w
  | _ =>
      fst (getVideoInfo' service videoId w) = Ok (Video.new result)
      /\ cache (snd (getVideoInfo' service videoId w))
         = storage_updateVideoInfo storage (cache w) (Video.new result)
  end.
Proof.
  intros Hread Hmime Ha Hfetch [->| ->] He.
  - by rewrite (getVideoInfo_fetch_throws _ _ _ _ _ _ Hread Hmime Ha Hfetch He).
  - by rewrite (getVideoInfo_promised _ _ _ _ _ _ Hread Hmime Ha Hfetch).
Qed.

(** X8. For a service that no adapter has, [getVideoInfo] still reads the
    cache first; when the read passes it throws the [TypeError] of the
    member read on [undefined], after the warning and an error log, without
    any adapter call or cache write. *)
Theorem unknown_service_TypeError w service videoId result :
  read w service videoId = Ok result ->
  mime_accepted' (Video.new result) = true ->
  getServiceAdapter' service = None ->
  getVideoInfo' service videoId w
  = (Throw (TypeError "Cannot read property 'fetchVideoInfo' of undefined"),
     World (cache w) (trace w ++ [EvLog Warn "MISSING INFO";
                                  EvLog Error "Failed to get video info"])).
Proof.
  intros Hread Hmime Ha.
  rewrite (getVideoInfo_cached _ _ _ _ _ (getCachedVideo_accepted _ _ _ _ Hread Hmime)).
  rewrite Ha. unfold try_catch, bind, call_fetchVideoInfo, emit, throw. simpl.
  by rewrite <- ?app_assoc.
Qed.

(** *** What is asked of the adapter and what comes back *)

Lemma missingFields_In video p :
  In p (missingFields' video) <-> In p (schema' video) /\ video !! p = None.
Proof.
  unfold missingFields. rewrite List.filter_In. unfold Video.hasOwnProperty.
  split; intros [Hin Hp]; (split; [done|]).
  - apply negb_true_iff, bool_decide_eq_false in Hp.
    destruct (video !! p) eqn:E; [|done]. exfalso. apply Hp. by eexists.
  - apply negb_true_iff, bool_decide_eq_false. rewrite Hp. by intros [? ?].
Qed.

(** X9. [getVideoInfo] never over-fetches: after a cache read that passed,
    the one adapter call asks, for the cached record's [id], exactly the
    schema fields that the cached record does not own. A field the record
    owns is not asked for, whatever its value, [null] included. *)
Theorem fetch_requests_absent_schema_fields w service videoId result a :
  read w service videoId = Ok result ->
  mime_accepted' (Video.new result) = true ->
  getServiceAdapter' service = Some a ->
  exists fields,
    List.filter is_adapter_call
      (drop (length (trace w)) (trace (snd (getVideoInfo' service videoId w))))
    = [EvFetchVideoInfo (Adapter.serviceId a) (Video.get (Video.new result) "id") fields]
    /\ forall p, In p fields
                 <-> In p (schema' (Video.new result)) /\ Video.new result !! p = None.
Proof.
  intros Hread Hmime Ha.
  exists (missingFields' (Video.new result)). split; [|apply missingFields_In].
  destruct (Adapter.fetchVideoInfo a (Video.get (Video.new result) "id")
              (missingFields' (Video.new result))) as [fetched|e] eqn:Hfetch.
  - rewrite (getVideoInfo_fetched _ _ _ _ _ _ Hread Hmime Ha Hfetch). simpl.
    by rewrite drop_app_length.
  - destruct (instanceof_OutOfQuotaException e) eqn:He.
    + destruct e; try discriminate.
      rewrite (getVideoInfo_out_of_quota _ _ _ _ _ Hread Hmime Ha Hfetch).
      destruct (_ <? _)%nat; simpl; by rewrite drop_app_length.
    + rewrite (getVideoInfo_fetch_throws _ _ _ _ _ _ Hread Hmime Ha Hfetch He). simpl.
      by rewrite drop_app_length.
Qed.

(** X10. Gap filling completes the record only when the call of
    [fetchVideoInfo] returns the record itself: if that record has every
    field asked for and leaves [service] as it was, the record
    [getVideoInfo] returns owns every field of the schema. When the call
    returns a promise, whatever the promise resolves with, nothing is
    filled: the record returned misses the fields the cached one missed. *)
Theorem gap_fill_completes w service videoId result a o :
  read w service videoId = Ok result ->
  mime_accepted' (Video.new result) = true ->
  getServiceAdapter' service = Some a ->
  Adapter.fetchVideoInfo a (Video.get (Video.new result) "id")
                         (missingFields' (Video.new result)) = completion o ->
  match o with
  | Returns fetched =>
      (forall p, In p (missingFields' (Video.new result)) -> is_Some (fetched !! p)) ->
      Video.get (Video.merge (Video.new result) fetched) "service"
      = Video.get (Video.new result) "service" ->
      exists video,
        fst (getVideoInfo' service videoId w) = Ok video
        /\ missingFields' video = []
  | Promises _ =>
      exists video,
        fst (getVideoInfo' service videoId w) = Ok video
        /\ missingFields' video = missingFields' (Video.new result)
  | Throws _ => True
  end.
Proof.
  intros Hread Hmime Ha Hfetch. destruct o as [fetched|e|settlement]; [|done|].
  - intros Hall Hservice.
    rewrite (getVideoInfo_fetched _ _ _ _ _ _ Hread Hmime Ha Hfetch). simpl.
    eexists; split; [reflexivity|].
    apply missingFields_all_present. unfold schema. rewrite Hservice.
    intros p Hp. unfold Video.hasOwnProperty. apply bool_decide_eq_true.
    rewrite merge_lookup.
    destruct (fetched !! p) eqn:Hf; [by eexists|].
    destruct (Video.new result !! p) eqn:Hc; [by eexists|].
    destruct (Hall p) as [v Hv]; [|congruence].
    apply missingFields_In. by split.
  - rewrite (getVideoInfo_promised _ _ _ _ _ _ Hread Hmime Ha Hfetch). simpl.
    by eexists.
Qed.

(** *** Validation of the mime type, continued *)

(** X11. Under a receiver without [isSupportedMimeType] (Node's global
    object) every cached record with a truthy [mime], supported or not, is
    refused: [getVideoInfo] throws a [TypeError], logs the failure, calls
    no adapter and leaves the cache as it was. *)
Theorem truthy_mime_TypeError_without_member w service videoId result :
  read w service videoId = Ok result ->
  truthy (Video.get (Video.new result) "mime") = true ->
  this_isSupportedMimeType = None ->
  exists msg,
    fst (getVideoInfo' service videoId w) = Throw (TypeError msg)
    /\ cache (snd (getVideoInfo' service videoId w)) = cache w
    /\ trace (snd (getVideoInfo' service videoId w))
       = trace w ++ [EvLog Error "Failed to get video metadata"].
Proof.
  intros Hread Hmime Hthis.
  rewrite (getVideoInfo_mime_no_member _ _ _ _ Hread Hmime Hthis).
  by eexists.
Qed.

(** X12. A falsy [mime] is never validated: a cached record whose [mime]
    is absent, [null], [undefined] or the empty string passes
    [getCachedVideo] whatever the receiver is, and comes back with its
    missing fields and no effect. *)
Theorem falsy_mime_not_validated w service videoId result :
  read w service videoId = Ok result ->
  truthy (Video.get (Video.new result) "mime") = false ->
  getCachedVideo' service videoId w
  = (Ok (Video.new result, missingFields' (Video.new result)), w).
Proof.
  intros Hread Hmime. apply getCachedVideo_accepted; [done|].
  unfold mime_accepted. by rewrite Hmime.
Qed.

(** *** The query resolver, continued *)

(** X13. For a query that is a URL the search service plays no part:
    [resolveVideoQuery] does the same with any two of them. *)
Theorem url_query_ignores_searchService w query searchService1 searchService2 :
  isURL URL_parse_host query = true ->
  resolveVideoQuery storage adapters URL_parse_host this_isSupportedMimeType
                    query searchService1 w
  = resolveVideoQuery storage adapters URL_parse_host this_isSupportedMimeType
                      query searchService2 w.
Proof.
  intros Hurl. unfold resolveVideoQuery. by rewrite Hurl.
Qed.

(** X14. The batch branches have no fallback: when [resolveURL] (for a
    collection URL) or [searchVideos] (for a text query) throws, the quota
    exception included, [resolveVideoQuery] throws the same exception,
    returns no record and writes nothing to the cache. *)
Theorem batch_errors_propagate w query searchService a e :
  (isURL' query = true
   /\ getServiceAdapterForURL' query = Some a
   /\ Adapter.isCollectionURL a query = true
   /\ Adapter.resolveURL a query = Throw e)
  \/ (isURL' query = false
      /\ getServiceAdapter' searchService = Some a
      /\ Adapter.searchVideos a query = Throw e) ->
  fst (resolveVideoQuery' query searchService w) = Throw e
  /\ cache (snd (resolveVideoQuery' query searchService w)) = cache w
  /\ exists call,
      is_adapter_call call = true
      /\ trace (snd (resolveVideoQuery' query searchService w)) = trace w ++ [call].
Proof.
  intros [(Hurl & Ha & Hcoll & Hthrow)|(Hurl & Ha & Hthrow)];
    unfold resolveVideoQuery; rewrite Hurl.
  - rewrite Ha, Hcoll. unfold bind, emit, lift. simpl. rewrite Hthrow. simpl.
    repeat split. eexists. split; [|reflexivity]. reflexivity.
  - unfold bind, searchVideos. rewrite Ha. unfold bind, emit, lift. simpl.
    rewrite Hthrow. simpl. repeat split. eexists. split; [|reflexivity]. reflexivity.
Qed.

(** X15. The shape of the value tells the branch: a text query and a
    collection URL resolve to an array, a single-item URL to one record,
    never the other way round. *)
Theorem result_shape_by_branch w query searchService :
  match fst (resolveVideoQuery storage adapters URL_parse_host
                               this_isSupportedMimeType query searchService w) with
  | Throw _ => True
  | Ok (Many _) =>
      isURL' query = false
      \/ exists a, getServiceAdapterForURL' query = Some a
                   /\ Adapter.isCollectionURL a query = true
  | Ok (One _) =>
      isURL' query = true
      /\ exists a, getServiceAdapterForURL' query = Some a
                   /\ Adapter.isCollectionURL a query = false
  end.
Proof.
  unfold resolveVideoQuery. destruct (isURL' query) eqn:Hurl.
  - destruct (getServiceAdapterForURL' query) as [a|] eqn:Ha; [|done].
    destruct (Adapter.isCollectionURL a query) eqn:Hcoll; simpl.
    + unfold bind, emit, lift. simpl.
      destruct (Adapter.resolveURL a query); simpl; [|done].
      right. by exists a.
    + unfold bind at 1.
      destruct (getVideoInfo _ _ _ _ _ w) as [[video|e] w']; simpl; [|done].
      split; [done|]. by exists a.
  - unfold bind at 1. destruct (searchVideos _ _ _ w) as [[vs|e] w'] eqn:Hs; simpl; [|done].
    by left.
Qed.

End Resolver.

(** ** The module under Node, on examples *)

Section Examples.

Import Fixtures.

(** C1, on the code. The cached record of [youtube:abc] has every field
    of the schema, and [getVideoInfo] still calls the adapter's
    [fetchVideoInfo], with the empty list of fields, and writes the cache:
    [missingInfo === 0] compares an array with a number. *)
Theorem cache_hit_calls_adapter :
  missingFields MapStore.storage complete_abc = []
  /\ fst (getVideoInfo "youtube" "abc" warm) = Ok complete_abc
  /\ adapter_calls (snd (getVideoInfo "youtube" "abc" warm))
     = [EvFetchVideoInfo "youtube" (JStr "abc") []]
  /\ cache_writes (snd (getVideoInfo "youtube" "abc" warm))
     = [EvUpdateVideoInfo complete_abc].
Proof. repeat split; vm_compute; reflexivity. Qed.

(** C4, on the code. The cached record of the direct file has every field
    of the schema and the mime type [video/x-unsupported]; under Node
    [getVideoInfo] throws a [TypeError], since [this] has no member
    [isSupportedMimeType], and not the unsupported-mime-type exception. *)
Theorem unsupported_mime_throws_TypeError :
  missingFields MapStore.storage unplayable = []
  /\ Video.get unplayable "mime" = JStr "video/x-unsupported"
  /\ getVideoInfo "direct" "https://files.example/a.bin" warm
     = (Throw (TypeError "this.isSupportedMimeType is not a function"),
        logged_failure warm).
Proof. repeat split; vm_compute; reflexivity. Qed.

(** C8, on the code. Resolving [youtube:xyz] twice against the same
    provider gives the same record both times, and the second call is no
    cache hit: it calls the adapter again, for no field. *)
Theorem second_resolution_calls_adapter :
  let first := getVideoInfo "youtube" "xyz" cold in
  let second := getVideoInfo "youtube" "xyz" (snd first) in
  fst first = fst second
  /\ missingFields MapStore.storage
       (default ∅ (cache (snd first) !! ("youtube", "xyz"))) = []
  /\ adapter_calls (snd first)
     = [EvFetchVideoInfo "youtube" (JStr "xyz") ["title"; "length"]]
  /\ adapter_calls (snd second)
     = [EvFetchVideoInfo "youtube" (JStr "xyz") ["title"; "length"];
        EvFetchVideoInfo "youtube" (JStr "xyz") []].
Proof. repeat split; vm_compute; reflexivity. Qed.

End Examples.

(** ** The general statements at concrete inputs *)

Section Instances.

Import Fixtures.

Local Abbreviation node := NodeRuntime.this_isSupportedMimeType.

(** The merge of a cached title with a fetched title and length. *)
Lemma merge_right_biased_witness :
  let cached : Video.t := {[ "title" := JStr "old"; "thumbnail" := JStr "t.png" ]} in
  let fetched : Video.t := {[ "title" := JStr "new"; "length" := JNum 7 ]} in
  Video.merge cached fetched !! "title" = Some (JStr "new")
  /\ Video.merge cached fetched !! "thumbnail" = Some (JStr "t.png")
  /\ Video.merge cached fetched !! "length" = Some (JNum 7)
  /\ Video.merge cached fetched !! "description" = None.
Proof.
  intros cached fetched.
  destruct (merge_right_biased cached fetched) as (Hnew & Hold & _ & Hnone).
  split; [|split; [|split]].
  - apply Hnew. vm_compute. reflexivity.
  - apply Hold; vm_compute; reflexivity.
  - apply Hnew. vm_compute. reflexivity.
  - apply Hnone; vm_compute; reflexivity.
Defined.

(** [vimeo:v1] is cached with its title alone and the provider is out of
    quota: the cached record comes back, from the adapter that throws and
    from the adapter whose promise is rejected. *)
Lemma quota_degrades_to_cached_witness :
  fst (getVideoInfo "vimeo" "v1" warm) = Ok partial_v1
  /\ fst (AsyncFixtures.getVideoInfo "vimeo" "v1" warm) = Ok partial_v1.
Proof.
  split.
  - apply (quota_degrades_to_cached MapStore.storage adapters node
             warm "vimeo" "v1" partial_v1 vimeo "title"
             (Throws OutOfQuotaException)).
    + vm_compute. reflexivity.
    + vm_compute. reflexivity.
    + vm_compute. left. reflexivity.
    + vm_compute. reflexivity.
    + vm_compute. reflexivity.
    + vm_compute. reflexivity.
    + left. reflexivity.
  - apply (quota_degrades_to_cached MapStore.storage AsyncFixtures.adapters node
             warm "vimeo" "v1" partial_v1 AsyncFixtures.vimeo "title"
             (Promises (Throw OutOfQuotaException))).
    + vm_compute. reflexivity.
    + vm_compute. reflexivity.
    + vm_compute. left. reflexivity.
    + vm_compute. reflexivity.
    + vm_compute. reflexivity.
    + reflexivity.
    + right. reflexivity.
Defined.

(** [vimeo:v2] is not cached and the provider is out of quota: the
    exception reaches the caller. *)
Lemma quota_without_cache_propagates_witness :
  missingFields MapStore.storage (video "vimeo" "v2" [])
  = schema MapStore.storage (video "vimeo" "v2" [])
  /\ fst (getVideoInfo "vimeo" "v2" warm) = Throw OutOfQuotaException.
Proof.
  apply (quota_without_cache_propagates MapStore.storage adapters node
           warm "vimeo" "v2" (video "vimeo" "v2" []) vimeo).
  - vm_compute. reflexivity.
  - vm_compute. reflexivity.
  - intros p Hp. vm_compute in Hp.
    destruct Hp as [<-|[<-|[]]]; vm_compute; reflexivity.
  - vm_compute. reflexivity.
  - vm_compute. reflexivity.
Defined.

Lemma quota_degradation_writes_nothing_witness :
  partial_v1 = Video.new partial_v1
  /\ cache (snd (getVideoInfo "vimeo" "v1" warm)) = cache warm
  /\ exists events,
      trace (snd (getVideoInfo "vimeo" "v1" warm)) = trace warm ++ events
      /\ List.filter is_cache_write events = [].
Proof.
  apply (quota_degradation_writes_nothing MapStore.storage adapters node
           warm "vimeo" "v1" partial_v1 vimeo partial_v1).
  - vm_compute. reflexivity.
  - vm_compute. reflexivity.
  - vm_compute. reflexivity.
  - vm_compute. reflexivity.
  - vm_compute. reflexivity.
Defined.

(** A store that cannot be read. *)
Lemma cache_read_error_propagates_witness :
  let call := getVideoInfo_broken "youtube" "abc" (World tt []) in
  fst call = Throw (OtherError "SequelizeConnectionError")
  /\ cache (snd call) = tt
  /\ exists events,
      trace (snd call) = [] ++ events
      /\ List.filter is_adapter_call events = []
      /\ List.filter is_cache_write events = [].
Proof.
  apply (cache_read_error_propagates BrokenStore.storage adapters node
           (World tt []) "youtube" "abc" (OtherError "SequelizeConnectionError")).
  reflexivity.
Defined.

(** The three branches of the query resolver on a cold cache: a single
    video, a playlist, a search. *)
Lemma records_written_back_witness :
  (let video := Fixtures.video "youtube" "xyz"
                  [("title", JStr "title of xyz"); ("length", JNum 212)] in
   exists events,
     resolveVideoQuery "https://youtube.com/xyz" "youtube" cold
     = (Ok (One video),
        World (MapStore.upsertOne ∅ video) ([] ++ events ++ [EvUpdateVideoInfo video])))
  /\ (let fetchResults := [Fixtures.video "youtube" "p1" [("title", JStr "first")];
                           Fixtures.video "youtube" "p2" [("title", JStr "second")]] in
      exists events,
        resolveVideoQuery "https://youtube.com/playlist/p" "youtube" cold
        = (Ok (Many fetchResults),
           World (MapStore.upsertMany ∅ fetchResults)
                 ([] ++ events ++ [EvUpdateManyVideoInfo fetchResults])))
  /\ (let searchResults := [Fixtures.video "youtube" "s1" [("title", JStr "some search text")]] in
      exists events,
        resolveVideoQuery "some search text" "youtube" cold
        = (Ok (Many searchResults),
           World (MapStore.upsertMany ∅ searchResults)
                 ([] ++ events ++ [EvUpdateManyVideoInfo searchResults]))).
Proof.
  split; [|split].
  - destruct (records_written_back MapStore.storage adapters URL_parse_host node
                cold "https://youtube.com/xyz" "youtube") as (Hsingle & _ & _).
    destruct (Hsingle youtube youtube
                (Fixtures.video "youtube" "xyz" [])
                (Fixtures.video "youtube" "xyz"
                   [("title", JStr "title of xyz"); ("length", JNum 212)]))
      as [events Hrun]; try (vm_compute; reflexivity).
    exists events. etransitivity; [exact Hrun|]. vm_compute. reflexivity.
  - destruct (records_written_back MapStore.storage adapters URL_parse_host node
                cold "https://youtube.com/playlist/p" "youtube") as (_ & Hmany & _).
    apply (Hmany youtube); vm_compute; reflexivity.
  - destruct (records_written_back MapStore.storage adapters URL_parse_host node
                cold "some search text" "youtube") as (_ & _ & Hsearch).
    apply (Hsearch youtube); vm_compute; reflexivity.
Defined.

(** A URL that no adapter handles and a search on a service that no
    adapter has. *)
Lemma missing_adapter_TypeError_witness :
  (exists msg, resolveVideoQuery "https://nowhere.example/v" "youtube" warm
               = (Throw (TypeError msg), warm))
  /\ (exists msg, resolveVideoQuery "some search text" "peertube" warm
                  = (Throw (TypeError msg), warm))
  /\ (exists msg, searchVideos adapters "peertube" "some search text" warm
                  = (Throw (TypeError msg), warm)).
Proof.
  split; [|split].
  - apply (missing_adapter_TypeError MapStore.storage adapters URL_parse_host node
             warm "https://nowhere.example/v" "youtube").
    vm_compute. reflexivity.
  - apply (missing_adapter_TypeError MapStore.storage adapters URL_parse_host node
             warm "some search text" "peertube").
    vm_compute. reflexivity.
  - apply (missing_adapter_TypeError MapStore.storage adapters URL_parse_host node
             warm "some search text" "peertube");
      vm_compute; reflexivity.
Defined.

(** C5, as stated, fails: for the URL that no adapter handles the lookup
    finds nothing, and what [resolveVideoQuery] throws is the [TypeError]
    of the member read on [undefined], not a typed error. *)
Lemma missing_adapter_not_typed :
  no_adapter_found adapters URL_parse_host "https://nowhere.example/v" "youtube"
  /\ ~ fails_with_typed_error
        (fst (resolveVideoQuery "https://nowhere.example/v" "youtube" warm)).
Proof.
  split.
  - vm_compute. reflexivity.
  - intros (e & Hthrow & Htyped).
    vm_compute in Hthrow. injection Hthrow as <-. discriminate Htyped.
Qed.

End Instances.

(** ** The topology view: regions *)

Section RegionFacts.

Import TopologyView.

Context {Tree : Type}.
Variable region : Tree -> string.

Local Abbreviation RegionMap := (list (string * PrebuiltRegion Tree)).
Local Abbreviation addTree' := (addTree Tree region).
Local Abbreviation of_region' := (of_region Tree region).
Local Abbreviation empty_region k :=
  {| name := k; balancerTrees := @nil Tree; monolithTrees := @nil Tree |}.

Implicit Types (m : RegionMap) (k : string) (tree : Tree).

(** *** The map operations *)

Lemma get_set m k v k' :
  get (set m k v) k' = if bool_decide (k = k') then Some v else get m k'.
Proof.
  induction m as [|[k0 v0] m IH]; simpl.
  - done.
  - destruct (bool_decide_reflect (k0 = k)) as [->|Hne]; simpl.
    + by destruct (bool_decide (k = k')).
    + rewrite IH. destruct (bool_decide_reflect (k0 = k')) as [->|Hne'];
        [by rewrite bool_decide_eq_false_2|done].
Qed.

Lemma has_get m k : has m k = bool_decide (is_Some (get m k)).
Proof.
  induction m as [|[k0 v0] m IH]; simpl.
  - reflexivity.
  - destruct (bool_decide (k0 = k)); simpl; [reflexivity|done].
Qed.

Lemma has_keys m k : has m k = true <-> In k (map fst m).
Proof.
  induction m as [|[k0 v0] m IH]; simpl; [done|].
  rewrite orb_true_iff, bool_decide_eq_true, IH. done.
Qed.

Lemma keys_set m k v :
  map fst (set m k v) = if has m k then map fst m else map fst m ++ [k].
Proof.
  induction m as [|[k0 v0] m IH]; simpl; [done|].
  destruct (bool_decide_reflect (k0 = k)) as [->|Hne]; simpl; [done|].
  rewrite IH. by destruct (has m k).
Qed.

Lemma treeCount_set_new m k v :
  has m k = false ->
  treeCount (set m k v)
  = treeCount m + (length (monolithTrees v) + length (balancerTrees v)).
Proof.
  unfold treeCount. induction m as [|[k0 v0] m IH]; simpl; [lia|].
  destruct (bool_decide (k0 = k)); simpl; [done|].
  intros Hm. rewrite (IH Hm). lia.
Qed.

Lemma treeCount_set_old m k r v :
  get m k = Some r ->
  treeCount (set m k v) + (length (monolithTrees r) + length (balancerTrees r))
  = treeCount m + (length (monolithTrees v) + length (balancerTrees v)).
Proof.
  unfold treeCount. induction m as [|[k0 v0] m IH]; simpl; [done|].
  destruct (bool_decide (k0 = k)); simpl.
  - intros [= ->]. lia.
  - intros Hm. specialize (IH Hm). lia.
Qed.

(** *** One turn of a loop *)

Lemma get_addTree push m tree k :
  get (addTree' push m tree) k
  = if bool_decide (region tree = k)
    then Some (push (default (empty_region (region tree)) (get m (region tree))) tree)
    else get m k.
Proof.
  unfold addTree. rewrite has_get.
  destruct (get m (region tree)) as [r|] eqn:Hr; simpl.
  - rewrite Hr. apply get_set.
  - rewrite get_set, bool_decide_eq_true_2 by done.
    rewrite !get_set. destruct (bool_decide (region tree = k)); [done|done].
Qed.

Lemma keys_addTree push m tree :
  map fst (addTree' push m tree)
  = if has m (region tree) then map fst m else map fst m ++ [region tree].
Proof.
  unfold addTree. destruct (has m (region tree)) eqn:Hhas; simpl.
  - rewrite has_get in Hhas. apply bool_decide_eq_true in Hhas as [r Hr].
    rewrite Hr, keys_set, has_get, Hr. reflexivity.
  - rewrite get_set, (bool_decide_eq_true_2 (region tree = region tree) eq_refl).
    rewrite !keys_set, Hhas.
    assert (has (set m (region tree) (empty_region (region tree))) (region tree)
            = true) as ->; [|done].
    rewrite has_get, get_set,
      (bool_decide_eq_true_2 (region tree = region tree) eq_refl).
    reflexivity.
Qed.

Lemma treeCount_addTree push m tree :
  (forall r, length (monolithTrees (push r tree)) + length (balancerTrees (push r tree))
             = S (length (monolithTrees r) + length (balancerTrees r))) ->
  treeCount (addTree' push m tree) = S (treeCount m).
Proof.
  intros Hpush. unfold addTree. destruct (has m (region tree)) eqn:Hhas; simpl.
  - pose proof Hhas as Hhas'.
    rewrite has_get in Hhas'. apply bool_decide_eq_true in Hhas' as [r Hr].
    rewrite Hr. pose proof (treeCount_set_old m _ r (push r tree) Hr) as H.
    rewrite Hpush in H. lia.
  - rewrite get_set, bool_decide_eq_true_2 by done.
    pose proof (treeCount_set_new m (region tree) (empty_region (region tree)) Hhas) as H1.
    pose proof (treeCount_set_old (set m (region tree) (empty_region (region tree)))
                  (region tree) (empty_region (region tree))
                  (push (empty_region (region tree)) tree)) as H2.
    rewrite get_set, bool_decide_eq_true_2 in H2 by done.
    specialize (H2 eq_refl). rewrite Hpush in H2. simpl in *. lia.
Qed.

(** *** The two loops *)

Local Abbreviation in_region k := (fun tree : Tree => bool_decide (region tree = k)).

(** What the map holds for [k] when the loops have gone over [ms] and
    [bs]. *)
Local Abbreviation grouped ms bs k :=
  (if existsb (in_region k%string) (ms ++ bs)
   then Some {| name := k%string; balancerTrees := of_region' k%string bs;
                monolithTrees := of_region' k%string ms |}
   else None).

Lemma existsb_snoc {A} (f : A -> bool) (l : list A) (x : A) :
  existsb f (l ++ [x]) = existsb f l || f x.
Proof. rewrite existsb_app. simpl. by rewrite orb_false_r. Qed.

Lemma filter_snoc {A} (f : A -> bool) (l : list A) (x : A) :
  List.filter f (l ++ [x]) = List.filter f l ++ (if f x then [x] else []).
Proof. rewrite List.filter_app. simpl. by destruct (f x). Qed.

Lemma filter_none {A} (f : A -> bool) (l : list A) :
  existsb f l = false -> List.filter f l = [].
Proof.
  induction l as [|x l IH]; simpl; [done|].
  intros [Hx Hl]%orb_false_iff. rewrite Hx. by apply IH.
Qed.

Lemma addTree_monolith_grouped m ms tree :
  (forall k, get m k = grouped ms [] k) ->
  forall k, get (addTree' pushMonolithTree m tree) k = grouped (ms ++ [tree]) [] k.
Proof.
  intros Hm k. rewrite get_addTree, !Hm, !app_nil_r in *.
  unfold of_region. rewrite existsb_snoc, filter_snoc.
  destruct (bool_decide_reflect (region tree = k)) as [<-|Hne].
  - rewrite orb_true_r.
    destruct (existsb (in_region (region tree)) ms) eqn:Hex; simpl; [done|].
    by rewrite (filter_none _ _ Hex).
  - by rewrite orb_false_r, app_nil_r.
Qed.

Lemma addTree_balancer_grouped m ms bs tree :
  (forall k, get m k = grouped ms bs k) ->
  forall k, get (addTree' pushBalancerTree m tree) k = grouped ms (bs ++ [tree]) k.
Proof.
  intros Hm k. rewrite get_addTree, !Hm.
  unfold of_region. rewrite app_assoc, existsb_snoc, filter_snoc.
  destruct (bool_decide_reflect (region tree = k)) as [<-|Hne].
  - rewrite orb_true_r.
    destruct (existsb (in_region (region tree)) (ms ++ bs)) eqn:Hex; simpl; [done|].
    rewrite existsb_app in Hex. apply orb_false_iff in Hex as [Hms Hbs].
    by rewrite (filter_none _ _ Hms), (filter_none _ _ Hbs).
  - by rewrite orb_false_r, app_nil_r.
Qed.

Lemma foldl_monolith_grouped rest m ms :
  (forall k, get m k = grouped ms [] k) ->
  forall k, get (foldl (addTree' pushMonolithTree) m rest) k = grouped (ms ++ rest) [] k.
Proof.
  revert m ms. induction rest as [|tree rest IH]; intros m ms Hm k; simpl.
  - rewrite Hm. by rewrite !app_nil_r.
  - assert (ms ++ tree :: rest = (ms ++ [tree]) ++ rest) as ->
        by (by rewrite <- app_assoc).
    by apply IH, addTree_monolith_grouped.
Qed.

Lemma foldl_balancer_grouped rest m ms bs :
  (forall k, get m k = grouped ms bs k) ->
  forall k, get (foldl (addTree' pushBalancerTree) m rest) k = grouped ms (bs ++ rest) k.
Proof.
  revert m bs. induction rest as [|tree rest IH]; intros m bs Hm k; simpl.
  - rewrite Hm. by rewrite !app_nil_r.
  - assert (bs ++ tree :: rest = (bs ++ [tree]) ++ rest) as ->
        by (by rewrite <- app_assoc).
    by apply IH, addTree_balancer_grouped.
Qed.

(** X16. The regions partition the trees. After the two loops the map has
    an entry for [k] exactly when some tree is of region [k]; the entry is
    named [k], its [monolithTrees] are the monolith trees of region [k] and
    its [balancerTrees] the balancer trees of region [k], each in the order
    of the input. *)
Theorem regions_partition_trees (ms bs : list Tree) k :
  get (monolithRegions Tree region ms bs) k
  = if existsb (fun tree => bool_decide (region tree = k)) (ms ++ bs)
    then Some {| name := k;
                 balancerTrees := of_region' k bs;
                 monolithTrees := of_region' k ms |}
    else None.
Proof.
  unfold monolithRegions.
  rewrite (foldl_balancer_grouped bs _ ms []); [done|].
  intros k'. rewrite (foldl_monolith_grouped ms [] []); [done|done].
Qed.

(** *** The keys *)

Local Abbreviation see :=
  (fun (seen : list string) (k : string) =>
     if bool_decide (k ∈ seen) then seen else seen ++ [k]).

Lemma has_elem_of m k : has m k = bool_decide (k ∈ map fst m).
Proof.
  destruct (has m k) eqn:H; symmetry.
  - apply bool_decide_eq_true, list_elem_of_In, has_keys, H.
  - apply bool_decide_eq_false. intros Hin%list_elem_of_In%has_keys. congruence.
Qed.

Lemma keys_foldl push l m :
  map fst (foldl (addTree' push) m l) = foldl see (map fst m) (map region l).
Proof.
  revert m. induction l as [|tree l IH]; intros m; simpl; [done|].
  rewrite IH, keys_addTree, has_elem_of. by destruct (bool_decide _).
Qed.

Lemma NoDup_foldl_see l seen : NoDup seen -> NoDup (foldl see seen l).
Proof.
  revert seen. induction l as [|k l IH]; intros seen Hseen; simpl; [done|].
  apply IH. destruct (bool_decide_reflect (k ∈ seen)) as [Hin|Hnotin]; [done|].
  apply NoDup_app. repeat split; [done| |apply NoDup_singleton].
  intros x Hx ->%list_elem_of_singleton. done.
Qed.

(** X17. The map has one entry per region, in the order in which the
    regions first occur among the monolith trees followed by the balancer
    trees; that is the order in which the regions are built and drawn. *)
Theorem regions_in_first_occurrence_order (ms bs : list Tree) :
  map fst (monolithRegions Tree region ms bs)
  = first_occurrences (map region (ms ++ bs))
  /\ NoDup (map fst (monolithRegions Tree region ms bs)).
Proof.
  assert (map fst (monolithRegions Tree region ms bs)
          = first_occurrences (map region (ms ++ bs))) as Hkeys.
  { unfold monolithRegions, first_occurrences.
    rewrite !keys_foldl, map_app, foldl_app. done. }
  split; [done|]. rewrite Hkeys. apply NoDup_foldl_see. constructor.
Qed.

(** X18. No tree is lost and none is counted twice: the entries of the map
    hold as many trees as the two lists together. *)
Theorem regions_keep_every_tree (ms bs : list Tree) :
  treeCount (monolithRegions Tree region ms bs) = length ms + length bs.
Proof.
  assert (forall push l m,
             (forall r tree,
                 length (monolithTrees (push r tree)) + length (balancerTrees (push r tree))
                 = S (length (monolithTrees r) + length (balancerTrees r))) ->
             treeCount (foldl (addTree' push) m l) = treeCount m + length l) as Hfold.
  { intros push l. induction l as [|tree l IH]; intros m Hpush; simpl; [lia|].
    rewrite IH by done. rewrite treeCount_addTree by (intros r; apply Hpush). lia. }
  unfold monolithRegions. rewrite !Hfold.
  - done.
  - intros r tree. simpl. rewrite length_app. simpl. lia.
  - intros r tree. simpl. rewrite length_app. simpl. lia.
Qed.

Lemma get_of_entry m k r :
  NoDup (map fst m) -> In (k, r) m -> get m k = Some r.
Proof.
  induction m as [|[k0 r0] m IH]; simpl; [done|].
  intros Hnd [[= -> ->]|Hin]; inversion Hnd as [|? ? Hnotin Hnd']; subst.
  - by rewrite bool_decide_eq_true_2.
  - rewrite bool_decide_eq_false_2; [by apply IH|].
    intros ->. apply Hnotin, list_elem_of_In. by apply (in_map fst _ (k, r)).
Qed.

(** X19. Every entry the loop over the map meets is a region with at least
    one tree, named by its key, and holds only trees of that region. *)
Theorem region_entries_nonempty (ms bs : list Tree) k r :
  In (k, r) (monolithRegions Tree region ms bs) ->
  name r = k
  /\ monolithTrees r ++ balancerTrees r <> []
  /\ Forall (fun tree => region tree = k) (monolithTrees r ++ balancerTrees r).
Proof.
  intros Hin.
  pose proof (get_of_entry _ _ _ (proj2 (regions_in_first_occurrence_order ms bs)) Hin)
    as Hget.
  rewrite regions_partition_trees in Hget.
  destruct (existsb _ (ms ++ bs)) eqn:Hex; [|done].
  injection Hget as <-. simpl. split; [done|]. split.
  - apply existsb_exists in Hex as (tree & Htree & Hk).
    apply in_app_or in Htree as [Htree|Htree]; intros Hnil;
      apply app_eq_nil in Hnil as [Hm Hb].
    + assert (In tree (of_region' k ms)) as H by (by apply List.filter_In).
      by rewrite Hm in H.
    + assert (In tree (of_region' k bs)) as H by (by apply List.filter_In).
      by rewrite Hb in H.
  - apply Forall_app. split; apply List.Forall_forall; intros tree Htree;
      apply List.filter_In in Htree as [_ Hk]; by apply bool_decide_eq_true in Hk.
Qed.

End RegionFacts.

(** ** More statements at concrete inputs *)

Section MoreInstances.

Local Abbreviation infoextract_getVideoInfo := getVideoInfo.

Import Fixtures.

Local Abbreviation node := NodeRuntime.this_isSupportedMimeType.

Lemma getServiceAdapter_of_configured_witness :
  getServiceAdapter adapters (Adapter.serviceId youtube) = Some youtube.
Proof.
  apply (getServiceAdapter_of_configured adapters youtube).
  - vm_compute. repeat constructor; intros H; inversion H; subst;
      repeat match goal with
             | H : _ ∈ _ :: _ |- _ => inversion H; clear H; subst
             | H : _ ∈ [] |- _ => inversion H
             end.
  - right. left. reflexivity.
Defined.

Lemma single_item_fetched_by_url_adapter_witness :
  (List.filter is_adapter_call
     (drop (length (trace cold))
           (trace (snd (resolveVideoQuery "https://youtube.com/xyz" "vimeo" cold))))
   = [EvFetchVideoInfo "youtube" (Video.get (Video.new (video "youtube" "xyz" [])) "id")
        (missingFields MapStore.storage (Video.new (video "youtube" "xyz" [])))]
   /\ fst (resolveVideoQuery "https://youtube.com/xyz" "vimeo" cold)
      = Ok (One (Video.merge
                   (Video.new (video "youtube" "xyz" []))
                   (video "youtube" "xyz"
                      [("title", JStr "title of xyz"); ("length", JNum 212)]))))
  /\ (List.filter is_adapter_call
        (drop (length (trace cold))
              (trace (snd (AsyncFixtures.resolveVideoQuery
                             "https://youtube.com/xyz" "vimeo" cold))))
      = [EvFetchVideoInfo "youtube" (Video.get (Video.new (video "youtube" "xyz" [])) "id")
           (missingFields MapStore.storage (Video.new (video "youtube" "xyz" [])))]
      /\ fst (AsyncFixtures.resolveVideoQuery "https://youtube.com/xyz" "vimeo" cold)
         = Ok (One (Video.new (video "youtube" "xyz" [])))).
Proof.
  split.
  - apply (single_item_fetched_by_url_adapter MapStore.storage adapters URL_parse_host
             node cold "https://youtube.com/xyz" "vimeo" youtube
             (video "youtube" "xyz" [])
             (Returns (video "youtube" "xyz"
                         [("title", JStr "title of xyz"); ("length", JNum 212)]))).
    + vm_compute. repeat constructor; intros H; inversion H; subst;
      repeat match goal with
             | H : _ ∈ _ :: _ |- _ => inversion H; clear H; subst
             | H : _ ∈ [] |- _ => inversion H
             end.
    + vm_compute. reflexivity.
    + vm_compute. reflexivity.
    + vm_compute. reflexivity.
    + vm_compute. reflexivity.
    + vm_compute. reflexivity.
    + vm_compute. reflexivity.
  - apply (single_item_fetched_by_url_adapter MapStore.storage AsyncFixtures.adapters
             URL_parse_host node cold "https://youtube.com/xyz" "vimeo"
             AsyncFixtures.youtube (video "youtube" "xyz" [])
             (Promises (Ok (AsyncFixtures.youtube_answer (JStr "xyz")
                              ["title"; "length"])))).
    + vm_compute. repeat constructor; intros H; inversion H; subst;
      repeat match goal with
             | H : _ ∈ _ :: _ |- _ => inversion H; clear H; subst
             | H : _ ∈ [] |- _ => inversion H
             end.
    + vm_compute. reflexivity.
    + vm_compute. reflexivity.
    + vm_compute. reflexivity.
    + vm_compute. reflexivity.
    + vm_compute. reflexivity.
    + vm_compute. reflexivity.
Defined.

(** The quota exception on a cold cache is thrown after the error log. *)
Lemma getVideoInfo_throw_logged_witness :
  cache (snd (getVideoInfo "vimeo" "v2" warm)) = cache warm
  /\ exists events msg,
      trace (snd (getVideoInfo "vimeo" "v2" warm))
      = trace warm ++ events ++ [EvLog Error msg]
      /\ List.filter is_cache_write events = [].
Proof.
  apply (getVideoInfo_throw_logged MapStore.storage adapters node
           warm "vimeo" "v2" OutOfQuotaException).
  vm_compute. reflexivity.
Defined.

(** The quota answer of the vimeo adapter on the record with a title. *)
Lemma fetch_requests_absent_schema_fields_witness :
  exists fields,
    List.filter is_adapter_call
      (drop (length (trace warm)) (trace (snd (getVideoInfo "vimeo" "v1" warm))))
    = [EvFetchVideoInfo "vimeo" (Video.get (Video.new partial_v1) "id") fields]
    /\ forall p, In p fields
                 <-> In p (schema MapStore.storage (Video.new partial_v1))
                     /\ Video.new partial_v1 !! p = None.
Proof.
  apply (fetch_requests_absent_schema_fields MapStore.storage adapters node
           warm "vimeo" "v1" partial_v1 vimeo); vm_compute; reflexivity.
Defined.

Lemma gap_fill_completes_witness :
  (exists video,
      fst (getVideoInfo "youtube" "xyz" cold) = Ok video
      /\ missingFields MapStore.storage video = [])
  /\ (exists v,
         fst (AsyncFixtures.getVideoInfo "youtube" "xyz" cold) = Ok v
         /\ missingFields MapStore.storage v
            = missingFields MapStore.storage (Video.new (video "youtube" "xyz" []))).
Proof.
  split.
  - apply (gap_fill_completes MapStore.storage adapters node
             cold "youtube" "xyz" (video "youtube" "xyz" []) youtube
             (Returns (video "youtube" "xyz"
                         [("title", JStr "title of xyz"); ("length", JNum 212)]))).
    + vm_compute. reflexivity.
    + vm_compute. reflexivity.
    + vm_compute. reflexivity.
    + vm_compute. reflexivity.
    + intros p Hp. vm_compute in Hp.
      destruct Hp as [<-|[<-|[]]]; vm_compute; eexists; reflexivity.
    + vm_compute. reflexivity.
  - apply (gap_fill_completes MapStore.storage AsyncFixtures.adapters node
             cold "youtube" "xyz" (video "youtube" "xyz" []) AsyncFixtures.youtube
             (Promises (Ok (AsyncFixtures.youtube_answer (JStr "xyz")
                              ["title"; "length"])))).
    + vm_compute. reflexivity.
    + vm_compute. reflexivity.
    + vm_compute. reflexivity.
    + vm_compute. reflexivity.
Defined.

Lemma unknown_service_TypeError_witness :
  getVideoInfo "peertube" "abc" warm
  = (Throw (TypeError "Cannot read property 'fetchVideoInfo' of undefined"),
     World (cache warm) (trace warm ++ [EvLog Warn "MISSING INFO";
                                        EvLog Error "Failed to get video info"])).
Proof.
  apply (unknown_service_TypeError MapStore.storage adapters node
           warm "peertube" "abc" (video "peertube" "abc" []));
    vm_compute; reflexivity.
Defined.

Lemma truthy_mime_TypeError_without_member_witness :
  exists msg,
    fst (getVideoInfo "direct" "https://files.example/a.bin" warm) = Throw (TypeError msg)
    /\ cache (snd (getVideoInfo "direct" "https://files.example/a.bin" warm)) = cache warm
    /\ trace (snd (getVideoInfo "direct" "https://files.example/a.bin" warm))
       = trace warm ++ [EvLog Error "Failed to get video metadata"].
Proof.
  apply (truthy_mime_TypeError_without_member MapStore.storage adapters node
           warm "direct" "https://files.example/a.bin" unplayable);
    vm_compute; reflexivity.
Defined.

(** A record with the empty string as [mime], under a receiver that would
    refuse every mime type. *)
Lemma falsy_mime_not_validated_witness :
  let record := video "direct" "f" [("title", JStr "f"); ("mime", JStr EmptyString)] in
  let w := world_of (cache_of [record]) in
  getCachedVideo MapStore.storage (Some (fun _ => false)) "direct" "f" w
  = (Ok (Video.new record, missingFields MapStore.storage (Video.new record)), w).
Proof.
  intros record w.
  apply (falsy_mime_not_validated MapStore.storage (Some (fun _ => false))
           w "direct" "f" record); vm_compute; reflexivity.
Defined.

Lemma url_query_ignores_searchService_witness :
  resolveVideoQuery "https://youtube.com/playlist/p" "youtube" cold
  = resolveVideoQuery "https://youtube.com/playlist/p" "peertube" cold.
Proof.
  apply (url_query_ignores_searchService MapStore.storage adapters URL_parse_host node
           cold "https://youtube.com/playlist/p" "youtube" "peertube").
  vm_compute. reflexivity.
Defined.

(** A search on the provider that is out of quota. *)
Lemma batch_errors_propagate_witness :
  fst (resolveVideoQuery "some search text" "vimeo" warm) = Throw OutOfQuotaException
  /\ cache (snd (resolveVideoQuery "some search text" "vimeo" warm)) = cache warm
  /\ exists call,
      is_adapter_call call = true
      /\ trace (snd (resolveVideoQuery "some search text" "vimeo" warm))
         = trace warm ++ [call].
Proof.
  apply (batch_errors_propagate MapStore.storage adapters URL_parse_host node
           warm "some search text" "vimeo" vimeo OutOfQuotaException).
  right. repeat split; vm_compute; reflexivity.
Defined.

(** A connection reset on a record that has a title to fall back on:
    thrown by the call, and as the rejection of a promise. *)
Lemma adapter_failure_thrown_or_masked_witness :
  (let run := infoextract_getVideoInfo MapStore.storage [MoreFixtures.dailymotion] node
                "dailymotion" "d1" MoreFixtures.lukewarm in
   fst run = Throw (OtherError "ECONNRESET")
   /\ cache (snd run) = cache MoreFixtures.lukewarm)
  /\ (let run := AsyncFixtures.getVideoInfo "dailymotion" "d1" MoreFixtures.lukewarm in
      fst run = Ok (Video.new MoreFixtures.partial_d1)
      /\ cache (snd run)
         = MapStore.upsertOne (cache MoreFixtures.lukewarm)
                              (Video.new MoreFixtures.partial_d1)).
Proof.
  split.
  - apply (adapter_failure_thrown_or_masked MapStore.storage [MoreFixtures.dailymotion]
             node MoreFixtures.lukewarm "dailymotion" "d1" MoreFixtures.partial_d1
             MoreFixtures.dailymotion (Throws (OtherError "ECONNRESET"))
             (OtherError "ECONNRESET")).
    + vm_compute. reflexivity.
    + vm_compute. reflexivity.
    + vm_compute. reflexivity.
    + vm_compute. reflexivity.
    + left. reflexivity.
    + reflexivity.
  - apply (adapter_failure_thrown_or_masked MapStore.storage AsyncFixtures.adapters
             node MoreFixtures.lukewarm "dailymotion" "d1" MoreFixtures.partial_d1
             AsyncFixtures.dailymotion (Promises (Throw (OtherError "ECONNRESET")))
             (OtherError "ECONNRESET")).
    + vm_compute. reflexivity.
    + vm_compute. reflexivity.
    + vm_compute. reflexivity.
    + reflexivity.
    + right. reflexivity.
    + reflexivity.
Defined.

(** The region [ewr] of the three monolith and two balancer trees. *)
Lemma region_entries_nonempty_witness :
  let r := {| TopologyView.name := "ewr";
              TopologyView.balancerTrees := [("b2", "ewr")];
              TopologyView.monolithTrees := [("m1", "ewr"); ("m3", "ewr")] |} in
  TopologyView.name r = "ewr"
  /\ TopologyView.monolithTrees r ++ TopologyView.balancerTrees r <> []
  /\ Forall (fun tree => MoreFixtures.region tree = "ewr")
            (TopologyView.monolithTrees r ++ TopologyView.balancerTrees r).
Proof.
  intros r.
  apply (region_entries_nonempty MoreFixtures.region
           MoreFixtures.monoliths MoreFixtures.balancers "ewr" r).
  vm_compute. left. reflexivity.
Defined.

End MoreInstances.

(** ** The fetch that is not awaited, on an example *)

Section AsyncExamples.

(** C3, on the code. [vimeo:v2] is not cached, so the record read has no
    field of the schema, and the adapter's [fetchVideoInfo] fails with the
    quota-exceeded exception as the rejection of the promise it returns.
    The call is not awaited: [getVideoInfo] throws nothing, returns the
    record without fields and writes it to the cache. *)
Theorem quota_rejection_not_propagated :
  let cached := Fixtures.video "vimeo" "v2" [] in
  let run := AsyncFixtures.getVideoInfo "vimeo" "v2" Fixtures.cold in
  Adapter.fetchVideoInfo AsyncFixtures.vimeo (JStr "v2")
                         (schema MapStore.storage cached)
  = completion (Promises (Throw OutOfQuotaException))
  /\ missingFields MapStore.storage cached = schema MapStore.storage cached
  /\ fst run = Ok cached
  /\ adapter_calls (snd run)
     = [EvFetchVideoInfo "vimeo" (JStr "v2") (schema MapStore.storage cached)]
  /\ cache_writes (snd run) = [EvUpdateVideoInfo cached].
Proof. repeat split; vm_compute; reflexivity. Qed.

End AsyncExamples.
